(** * procspy background reader: double-buffered /proc scanning with an
      adaptive rate limit

    Shallow embedding of [probe/endpoint/procspy/background_reader_linux.go]:
    the [backgroundReader] struct, its lifecycle methods [start] and [stop],
    the scan [loop] (as a small-step machine whose steps are the statements
    of the Go loop that touch shared state), the accessor [getWalkedProcPid],
    and the float64 feedback law that recomputes the rate-limit period. *)

From Stdlib Require Import ZArith QArith Qround Qabs Qminmax Qpower Lia Lra Psatz List Bool String.
From Stdlib Require Import Floats Uint63.
From stdpp Require Import gmap.
Import ListNotations.

Open Scope Z_scope.

(** ** binary64 arithmetic

    Go's [float64] is IEEE-754 binary64.  IEEE-754 defines every arithmetic
    operation as the exact (rational) result rounded to the nearest
    representable number, ties to even.  The operations below are written
    that way over the Standard Library's [spec_float] data type (sign,
    53-bit mantissa, exponent), so that their rounding error can be bounded;
    they are compared with the kernel's hardware floats ([PrimFloat]) on the
    inputs used in the examples further down. *)
Module Float64.

Abbreviation float64 := spec_float.

Definition prec : Z := 53.
Definition emax : Z := 1024.
Definition emin : Z := 3 - emax - prec.

Definition pow2 (k : Z) : Q := Qpower 2 k.

(** The rational number [m * 2^e]. *)
Definition magnitude (m : positive) (e : Z) : Q := inject_Z (Zpos m) * pow2 e.

(** The real value of a finite float (0 for the special values, which the
    callers treat separately). *)
Definition F2Q (x : float64) : Q :=
  match x with
  | S754_finite s m e => if s then - magnitude m e else magnitude m e
  | _ => 0
  end.

(** Nearest integer, ties to the even one. *)
Definition round_half_even (y : Q) : Z :=
  let q := Qfloor y in
  match Qcompare (y - inject_Z q) (1 # 2) with
  | Lt => q
  | Gt => q + 1
  | Eq => if Z.even q then q else q + 1
  end.

(** For [x > 0]: the exponent [k] with [2^52 <= x / 2^k < 2^53], but not
    below [emin] (subnormal range). *)
Definition exponent_for (x : Q) : Z :=
  let k0 := Z.log2 (Qnum x) - Z.log2 (Zpos (Qden x)) - prec in
  let k1 := if Qle_bool (pow2 prec) (x / pow2 k0) then k0 + 1 else k0 in
  Z.max k1 emin.

(** Round the positive rational [x] to binary64, with sign [s]. *)
Definition round_pos (s : bool) (x : Q) : float64 :=
  let k := exponent_for x in
  let m := round_half_even (x / pow2 k) in
  let '(m, k) := if m =? 2 ^ prec then (2 ^ (prec - 1), k + 1) else (m, k) in
  match m with
  | Zpos p => if k <=? emax - prec then S754_finite s p k else S754_infinity s
  | _ => S754_zero s
  end.

(** [float64(z)] for an integer [z]. *)
Definition of_int (z : Z) : float64 :=
  match z with
  | Z0 => S754_zero false
  | Zpos p => round_pos false (inject_Z (Zpos p))
  | Zneg p => round_pos true (inject_Z (Zpos p))
  end.

(** [x / y]. *)
Definition div (x y : float64) : float64 :=
  match x, y with
  | S754_nan, _ | _, S754_nan => S754_nan
  | S754_infinity _, S754_infinity _ => S754_nan
  | S754_infinity sx, S754_finite sy _ _ => S754_infinity (xorb sx sy)
  | S754_finite sx _ _, S754_infinity sy => S754_zero (xorb sx sy)
  | S754_infinity sx, S754_zero sy => S754_infinity (xorb sx sy)
  | S754_zero sx, S754_infinity sy => S754_zero (xorb sx sy)
  | S754_finite sx _ _, S754_zero sy => S754_infinity (xorb sx sy)
  | S754_zero sx, S754_finite sy _ _ => S754_zero (xorb sx sy)
  | S754_zero _, S754_zero _ => S754_nan
  | S754_finite sx mx ex, S754_finite sy my ey =>
      round_pos (xorb sx sy) (magnitude mx ex / magnitude my ey)
  end.

(** [x * y]. *)
Definition mul (x y : float64) : float64 :=
  match x, y with
  | S754_nan, _ | _, S754_nan => S754_nan
  | S754_infinity sx, S754_infinity sy => S754_infinity (xorb sx sy)
  | S754_infinity sx, S754_finite sy _ _ => S754_infinity (xorb sx sy)
  | S754_finite sx _ _, S754_infinity sy => S754_infinity (xorb sx sy)
  | S754_infinity _, S754_zero _ => S754_nan
  | S754_zero _, S754_infinity _ => S754_nan
  | S754_finite sx _ _, S754_zero sy => S754_zero (xorb sx sy)
  | S754_zero sx, S754_finite sy _ _ => S754_zero (xorb sx sy)
  | S754_zero sx, S754_zero sy => S754_zero (xorb sx sy)
  | S754_finite sx mx ex, S754_finite sy my ey =>
      round_pos (xorb sx sy) (magnitude mx ex * magnitude my ey)
  end.

(** [x < y]: false when either is NaN, otherwise the order of the values. *)
Definition ltb (x y : float64) : bool :=
  match x, y with
  | S754_nan, _ | _, S754_nan => false
  | S754_infinity sx, S754_infinity sy => sx && negb sy
  | S754_infinity sx, _ => sx
  | _, S754_infinity sy => negb sy
  | _, _ => match Qcompare (F2Q x) (F2Q y) with Lt => true | _ => false end
  end.

(** [x > y]. *)
Definition gtb (x y : float64) : bool := ltb y x.

Definition is_zero (x : float64) : bool :=
  match x with S754_zero _ => true | _ => false end.

Definition signbit (x : float64) : bool :=
  match x with
  | S754_zero s | S754_infinity s | S754_finite s _ _ => s
  | S754_nan => false
  end.

(** Go's [math.Min]: [Min(x, -Inf) = Min(-Inf, x) = -Inf],
    [Min(x, NaN) = Min(NaN, x) = NaN], [Min(-0, ±0) = Min(±0, -0) = -0],
    otherwise the smaller argument. *)
Definition Min (x y : float64) : float64 :=
  match x, y with
  | S754_infinity true, _ | _, S754_infinity true => S754_infinity true
  | S754_nan, _ | _, S754_nan => S754_nan
  | _, _ =>
      if is_zero x && is_zero y then (if signbit x then x else y)
      else if ltb x y then x else y
  end.

Definition min_int64 : Z := - 2 ^ 63.
Definition max_int64 : Z := 2 ^ 63 - 1.

(** Conversion of a float64 to a 64-bit integer type (here
    [time.Duration]): the fraction is discarded (truncation towards zero).
    When the value does not fit the language leaves the result to the
    implementation: [None]. *)
Definition to_int64 (x : float64) : option Z :=
  match x with
  | S754_zero _ => Some 0
  | S754_finite _ _ _ =>
      let q := F2Q x in
      let z := Z.quot (Qnum q) (Zpos (Qden q)) in
      if (min_int64 <=? z) && (z <=? max_int64) then Some z else None
  | _ => None
  end.

End Float64.

(** ** Durations and the package constants

    [time.Duration] is an [int64] count of nanoseconds. *)

Definition Millisecond : Z := 1000000.
Definition Second : Z := 1000 * Millisecond.

Definition initialRateLimitPeriod : Z := 50 * Millisecond.
Definition maxRateLimitPeriod : Z := 250 * Millisecond.
Definition fdBlockSize : Z := 300.
Definition targetWalkTime : Z := 10 * Second.

(** ** The feedback law of [loop] (lines 98-112)

    Written over the two constants it reads, so that it can also be
    evaluated for other settings of [targetWalkTime] and
    [maxRateLimitPeriod]. *)
Module RateLimit.
Import Float64.

Section Law.
Variables target maxPeriod : Z.

Definition maxRateLimitPeriodF : float64 := of_int maxPeriod.
Definition targetWalkTimeF : float64 := of_int target.

(** The constant [1.5]. *)
Definition one_and_a_half : float64 := S754_finite false 6755399441055744 (-52).

(** [walkTimeF/targetWalkTimeF > 1.5] (line 102). *)
Definition warns (walkTime : Z) : bool :=
  gtb (div (of_int walkTime) targetWalkTimeF) one_and_a_half.

(** [targetWalkTimeF / walkTimeF * float64(rateLimitPeriod)] (line 111). *)
Definition scaledRateLimitPeriod (rateLimitPeriod walkTime : Z) : float64 :=
  mul (div targetWalkTimeF (of_int walkTime)) (of_int rateLimitPeriod).

(** [time.Duration(math.Min(scaledRateLimitPeriod, maxRateLimitPeriodF))]
    (line 112). *)
Definition next (rateLimitPeriod walkTime : Z) : option Z :=
  to_int64 (Min (scaledRateLimitPeriod rateLimitPeriod walkTime) maxRateLimitPeriodF).
End Law.

End RateLimit.

(** The law with the constants of the package. *)
Definition warnsSlowPass : Z -> bool := RateLimit.warns targetWalkTime.
Definition nextRateLimitPeriod : Z -> Z -> option Z :=
  RateLimit.next targetWalkTime maxRateLimitPeriod.

(** The formula as the specification words it: [min(maxPeriod, currentPeriod
    * targetDuration / elapsed)], over the rationals. *)
Definition spec_next_period (target maxPeriod p e : Z) : Q :=
  Qmin (inject_Z maxPeriod) (inject_Z p * inject_Z target / inject_Z e).

(** ** The reader and the machine it runs on *)

Definition error : Type := String.string.
Definition errAlreadyRunning : error := "background reader already running"%string.
Definition errNotRunning : error := "background reader already not running"%string.

(** The two [bytes.Buffer] objects allocated by [newBackgroundReader]; the
    struct holds pointers to them and [loop] swaps the pointers. *)
Inductive bufptr : Type := BufA | BufB.

Definition bufptr_eqb (p q : bufptr) : bool :=
  match p, q with
  | BufA, BufA | BufB, BufB => true
  | _, _ => false
  end.

(** Contents (the unread bytes) of the two buffers. *)
Record Heap : Type := mkHeap { cellA : list Byte.byte; cellB : list Byte.byte }.

Definition load (h : Heap) (p : bufptr) : list Byte.byte :=
  match p with BufA => cellA h | BufB => cellB h end.

Definition store (h : Heap) (p : bufptr) (v : list Byte.byte) : Heap :=
  match p with
  | BufA => {| cellA := v; cellB := cellB h |}
  | BufB => {| cellA := cellA h; cellB := v |}
  end.

Inductive logEntry : Type :=
| Errorf_walking (err : error)          (* line 77 *)
| Debugf_pass (walkTime : Z)            (* line 101 *)
| Warnf_slow (walkTime target : Z)      (* line 103 *)
| Debugf_rate (rateLimitPeriod : Z).    (* line 113 *)

(** Why the process stopped: [time.NewTicker] panics on a non-positive
    interval, and a float64 that does not fit [int64] converts to a value
    the language does not define. *)
Inductive haltReason : Type :=
| PanicNonPositiveInterval (d : Z)
| ConversionNotDefined.

Section Reader.
(** [process.Walker] and [Proc] are declared elsewhere in the repository. *)
Context {Walker Proc : Type}.

Abbreviation sockets := (option (gmap N Proc)).

Record backgroundReader : Type := mkReader {
  walker : Walker;
  mtx : bool;                 (* true while the mutex is held *)
  running : bool;
  pleaseStop : bool;
  walkingBuf : bufptr;
  readyBuf : bufptr;
  readySockets : sockets      (* [None] is the nil map *)
}.

(** Where the goroutine running [loop] stands. *)
Inductive loopPc : Type :=
| Walking                       (* line 75, inside walkProcPid *)
| Publishing (s : sockets)      (* line 81, walkProcPid returned no error *)
| Adapting                      (* line 98 *)
| Resetting (walkTime : Z)      (* line 118 *)
| Sleeping (walkTime : Z).      (* line 121 *)

(** The loop's local variables. *)
Record loopState : Type := mkLoop {
  pc : loopPc;
  rateLimitPeriod : Z;
  ticker : Z                    (* period of the ticker the loop holds *)
}.

Record System : Type := mkSystem {
  br : backgroundReader;
  heap : Heap;
  task : option loopState;      (* the goroutine started by [go br.loop()] *)
  tickers : nat;                (* tickers created and not yet stopped *)
  logs : list logEntry;         (* most recent first *)
  halted : option haltReason
}.

(** *** Actions: a state monad over [System]; [None] means the action
    cannot proceed (a [Lock] on a held mutex blocks). *)
Definition Act (A : Type) : Type := System -> option (A * System).

#[local] Instance Act_ret : MRet Act := fun A a s => Some (a, s).
#[local] Instance Act_bind : MBind Act :=
  fun A B f m s => match m s with Some (a, s') => f a s' | None => None end.

Definition gets {A} (f : backgroundReader -> A) : Act A :=
  fun s => Some (f (br s), s).

Definition update (f : backgroundReader -> backgroundReader) : Act unit :=
  fun s => Some (tt, mkSystem (f (br s)) (heap s) (task s) (tickers s) (logs s) (halted s)).

Definition set_mtx (b : bool) (r : backgroundReader) : backgroundReader :=
  mkReader (walker r) b (running r) (pleaseStop r) (walkingBuf r) (readyBuf r) (readySockets r).
Definition set_running (b : bool) (r : backgroundReader) : backgroundReader :=
  mkReader (walker r) (mtx r) b (pleaseStop r) (walkingBuf r) (readyBuf r) (readySockets r).
Definition set_pleaseStop (b : bool) (r : backgroundReader) : backgroundReader :=
  mkReader (walker r) (mtx r) (running r) b (walkingBuf r) (readyBuf r) (readySockets r).
Definition set_bufs (w rd : bufptr) (r : backgroundReader) : backgroundReader :=
  mkReader (walker r) (mtx r) (running r) (pleaseStop r) w rd (readySockets r).
Definition set_readySockets (m : sockets) (r : backgroundReader) : backgroundReader :=
  mkReader (walker r) (mtx r) (running r) (pleaseStop r) (walkingBuf r) (readyBuf r) m.

(** [br.mtx.Lock()] and [br.mtx.Unlock()]. *)
Definition Lock : Act unit :=
  fun s => if mtx (br s) then None else update (set_mtx true) s.
Definition Unlock : Act unit := update (set_mtx false).

Definition set_heap (h : Heap) : Act unit :=
  fun s => Some (tt, mkSystem (br s) h (task s) (tickers s) (logs s) (halted s)).
Definition set_task (t : option loopState) : Act unit :=
  fun s => Some (tt, mkSystem (br s) (heap s) t (tickers s) (logs s) (halted s)).
Definition log (e : logEntry) : Act unit :=
  fun s => Some (tt, mkSystem (br s) (heap s) (task s) (tickers s) (e :: logs s) (halted s)).
Definition halt (why : haltReason) : Act unit :=
  fun s => Some (tt, mkSystem (br s) (heap s) (task s) (tickers s) (logs s) (Some why)).

(** [time.NewTicker(d)]: panics unless [d > 0]. *)
Definition NewTicker (d : Z) : Act bool :=
  fun s =>
    if 0 <? d
    then Some (true, mkSystem (br s) (heap s) (task s) (S (tickers s)) (logs s) (halted s))
    else Some (false, mkSystem (br s) (heap s) (task s) (tickers s) (logs s)
                        (Some (PanicNonPositiveInterval d))).

(** [ticker.Stop()]. *)
Definition ticker_Stop : Act unit :=
  fun s => Some (tt, mkSystem (br s) (heap s) (task s) (Nat.pred (tickers s)) (logs s) (halted s)).

(** [newBackgroundReader]: both buffers empty, every other field zero. *)
Definition newBackgroundReader (w : Walker) : System :=
  {| br := {| walker := w; mtx := false; running := false; pleaseStop := false;
              walkingBuf := BufA; readyBuf := BufB; readySockets := None |};
     heap := {| cellA := []; cellB := [] |};
     task := None; tickers := 0%nat; logs := []; halted := None |}.

(** [go br.loop()] up to the head of the [for]: the locals are
    initialised and the first ticker is created (lines 71-72). *)
Definition go_loop : Act unit :=
  NewTicker initialRateLimitPeriod ;;
  set_task (Some {| pc := Walking; rateLimitPeriod := initialRateLimitPeriod;
                    ticker := initialRateLimitPeriod |}).

(** [start] (lines 44-53); the deferred [Unlock] runs on both returns. *)
Definition start : Act (option error) :=
  Lock ;;
  r ← gets running;
  if r : bool then
    Unlock ;; mret (Some errAlreadyRunning)
  else
    update (set_running true) ;;
    go_loop ;;
    Unlock ;; mret None.

(** [stop] (lines 55-63). *)
Definition stop : Act (option error) :=
  Lock ;;
  r ← gets running;
  if negb r : bool then
    Unlock ;; mret (Some errNotRunning)
  else
    update (set_pleaseStop true) ;;
    Unlock ;; mret None.

(** [getWalkedProcPid] (lines 125-133): [buf.ReadFrom] appends everything
    the reader over [br.readyBuf.Bytes()] yields to [buf]. *)
Definition getWalkedProcPid (buf : list Byte.byte) : Act (list Byte.byte * sockets) :=
  Lock ;;
  rb ← gets readyBuf;
  bytes ← (fun s => Some (load (heap s) rb, s));
  let buf' := buf ++ bytes in
  m ← gets readySockets;
  Unlock ;; mret (buf', m).

(** *** The scan loop (lines 65-123), one action per stretch of
    statements between two points where another goroutine may run. *)

Definition goto (l : loopState) (p : loopPc) : Act unit :=
  set_task (Some {| pc := p; rateLimitPeriod := rateLimitPeriod l; ticker := ticker l |}).

(** Modelled from the spec: [walkProcPid] is not part of the file.  The
    specification says the walker appends its serialized results to the
    buffer it is given ([br.walkingBuf]) and returns a freshly built
    mapping, or an error.  One write of the walker: *)
Definition walker_write (chunk : list Byte.byte) : Act unit :=
  fun s =>
    let w := walkingBuf (br s) in
    set_heap (store (heap s) w (load (heap s) w ++ chunk)) s.

(** Lines 75-79: [walkProcPid] has returned. *)
Definition walk_returned (l : loopState) (m : sockets) (err : option error) : Act unit :=
  match err with
  | Some e => log (Errorf_walking e) ;; goto l Walking       (* continue *)
  | None => goto l (Publishing m)
  end.

(** Lines 81-96: the critical section. *)
Definition publish (l : loopState) (m : sockets) : Act unit :=
  Lock ;;
  please ← gets pleaseStop;
  if please : bool then
    update (set_pleaseStop false) ;;
    update (set_running false) ;;
    ticker_Stop ;;
    Unlock ;;
    set_task None                                          (* return *)
  else
    w ← gets walkingBuf;
    r ← gets readyBuf;
    update (set_bufs r w) ;;
    update (set_readySockets m) ;;
    Unlock ;;
    goto l Adapting.

(** Lines 98-116, with [walkTime] the measured [time.Now().Sub(start)]. *)
Definition adapt (l : loopState) (walkTime : Z) : Act unit :=
  log (Debugf_pass walkTime) ;;
  (if warnsSlowPass walkTime
   then log (Warnf_slow walkTime targetWalkTime) else mret tt) ;;
  match nextRateLimitPeriod (rateLimitPeriod l) walkTime with
  | None => halt ConversionNotDefined
  | Some p =>
      set_task (Some {| pc := Adapting; rateLimitPeriod := p; ticker := ticker l |}) ;;
      log (Debugf_rate p) ;;
      ticker_Stop ;;
      ok ← NewTicker p;
      if ok : bool
      then set_task (Some {| pc := Resetting walkTime; rateLimitPeriod := p; ticker := p |})
      else mret tt
  end.

(** Line 118: [br.walkingBuf.Reset()]. *)
Definition reset (l : loopState) (walkTime : Z) : Act unit :=
  w ← gets walkingBuf;
  (fun s => set_heap (store (heap s) w []) s) ;;
  goto l (Sleeping walkTime).

(** Line 121: [time.Sleep] returns at once for a non-positive duration. *)
Definition sleepDuration (walkTime : Z) : Z := Z.max 0 (targetWalkTime - walkTime).

Definition sleep (l : loopState) (walkTime : Z) : Act unit := goto l Walking.

(** *** Interleavings: events and traces *)

Inductive event : Type :=
| CallStart
| CallStop
| CallGetWalkedProcPid (buf : list Byte.byte)
| WalkerWrite (chunk : list Byte.byte)
| WalkerReturn (m : sockets) (err : option error)
| LoopPublish
| LoopAdapt (walkTime : Z)
| LoopReset
| LoopSleep.

Inductive output : Type :=
| RetError (err : option error)
| RetSnapshot (buf : list Byte.byte) (m : sockets)
| Internal.

Definition internal (a : Act unit) (s : System) : option (System * output) :=
  match a s with Some (_, s') => Some (s', Internal) | None => None end.

(** One step of the whole system.  A halted process takes no step; a
    loop event is enabled only where the loop stands. *)
Definition step (ev : event) (s : System) : option (System * output) :=
  match halted s with
  | Some _ => None
  | None =>
      match ev with
      | CallStart =>
          match start s with Some (r, s') => Some (s', RetError r) | None => None end
      | CallStop =>
          match stop s with Some (r, s') => Some (s', RetError r) | None => None end
      | CallGetWalkedProcPid buf =>
          match getWalkedProcPid buf s with
          | Some ((buf', m), s') => Some (s', RetSnapshot buf' m)
          | None => None
          end
      | WalkerWrite chunk =>
          match task s with
          | Some {| pc := Walking |} => internal (walker_write chunk) s
          | _ => None
          end
      | WalkerReturn m err =>
          match task s with
          | Some ({| pc := Walking |} as l) => internal (walk_returned l m err) s
          | _ => None
          end
      | LoopPublish =>
          match task s with
          | Some ({| pc := Publishing m |} as l) => internal (publish l m) s
          | _ => None
          end
      | LoopAdapt walkTime =>
          match task s with
          | Some ({| pc := Adapting |} as l) => internal (adapt l walkTime) s
          | _ => None
          end
      | LoopReset =>
          match task s with
          | Some ({| pc := Resetting walkTime |} as l) => internal (reset l walkTime) s
          | _ => None
          end
      | LoopSleep =>
          match task s with
          | Some ({| pc := Sleeping walkTime |} as l) => internal (sleep l walkTime) s
          | _ => None
          end
      end
  end.

(** A trace: the final state and the outputs, when every event was
    enabled in turn. *)
Fixpoint run (tr : list event) (s : System) : option (System * list output) :=
  match tr with
  | [] => Some (s, [])
  | ev :: tr' =>
      match step ev s with
      | Some (s', o) =>
          match run tr' s' with
          | Some (s'', os) => Some (s'', o :: os)
          | None => None
          end
      | None => None
      end
  end.

(** What a consumer would get now: the ready buffer's bytes and the
    published mapping. *)
Definition snapshot (s : System) : list Byte.byte * sockets :=
  (load (heap s) (readyBuf (br s)), readySockets (br s)).

(** The bytes now in the walking buffer. *)
Definition walking_bytes (s : System) : list Byte.byte :=
  load (heap s) (walkingBuf (br s)).

(** Does [ev], taken in [s], swap the buffers (lines 93-94)? *)
Definition publishes (ev : event) (s : System) : option (list Byte.byte * sockets) :=
  match ev, task s with
  | LoopPublish, Some {| pc := Publishing m |} =>
      if pleaseStop (br s) then None else Some (walking_bytes s, m)
  | _, _ => None
  end.

(** The snapshots published along a trace, oldest first: at each swap,
    the bytes of the buffer that becomes ready with the mapping of that
    pass. *)
Fixpoint publications (tr : list event) (s : System) : list (list Byte.byte * sockets) :=
  match tr with
  | [] => []
  | ev :: tr' =>
      match step ev s with
      | Some (s', _) =>
          match publishes ev s with
          | Some snap => snap :: publications tr' s'
          | None => publications tr' s'
          end
      | None => []
      end
  end.

(** Does the loop return (line 89) somewhere along the trace? *)
Fixpoint loop_exits (tr : list event) (s : System) : bool :=
  match tr with
  | [] => false
  | ev :: tr' =>
      match step ev s with
      | Some (s', _) =>
          match task s, task s' with
          | Some _, None => true
          | _, _ => loop_exits tr' s'
          end
      | None => false
      end
  end.

(** The bytes written by the walker along a trace. *)
Fixpoint written (tr : list event) : list Byte.byte :=
  match tr with
  | [] => []
  | WalkerWrite chunk :: tr' => chunk ++ written tr'
  | _ :: tr' => written tr'
  end.

Definition is_WalkerReturn (ev : event) : bool :=
  match ev with WalkerReturn _ _ => true | _ => false end.



End Reader.

(** The unit roundoff of binary64, [2^-53]: the largest relative error of one
    rounding to nearest. *)
Definition unit_roundoff : Q := Float64.pow2 (- Float64.prec).

(** [maxRateLimitPeriodF], the float64 of 250 ms. *)
Abbreviation maxF := (S754_finite false 8388608000000000 (-25)).

Section Invariant.
Context {Walker Proc : Type}.
Implicit Types s : @System Walker Proc.

(** What holds between any two steps: the mutex is free, the two roles
    point at different buffers, [pleaseStop] is only set while
    [running], [running] says whether the loop goroutine exists, the
    process can only have halted in the loop's adapting step, and a live
    loop holds exactly one ticker, of a positive period no larger than
    the maximum. *)
Definition inv s : Prop :=
  mtx (br s) = false /\
  walkingBuf (br s) <> readyBuf (br s) /\
  (pleaseStop (br s) = true -> running (br s) = true) /\
  match task s with
  | Some l =>
      running (br s) = true /\
      rateLimitPeriod l <= maxRateLimitPeriod /\
      (halted s <> None -> pc l = Adapting) /\
      (halted s = None ->
       0 < rateLimitPeriod l /\ ticker l = rateLimitPeriod l /\ tickers s = 1%nat)
  | None => running (br s) = false /\ tickers s = 0%nat /\ halted s = None
  end.

(** The loop's own events from where it stands to its next critical
    section, for a walk that writes [chunks] and returns [m] without
    error, and a measured pass time [walkTime] if the loop has still to
    adapt. *)
Definition walk_events (chunks : list (list Byte.byte)) (m : option (gmap N Proc))
  : list (@event Proc) :=
  map WalkerWrite chunks ++ [WalkerReturn m None; LoopPublish].

Definition events_to_publish (l : @loopState Proc) (walkTime : Z)
    (chunks : list (list Byte.byte)) (m : option (gmap N Proc)) : list (@event Proc) :=
  match pc l with
  | Walking => walk_events chunks m
  | Publishing _ => [LoopPublish]
  | Adapting => LoopAdapt walkTime :: LoopReset :: LoopSleep :: walk_events chunks m
  | Resetting _ => LoopReset :: LoopSleep :: walk_events chunks m
  | Sleeping _ => LoopSleep :: walk_events chunks m
  end.

(** The loop can go through its adapting step with this pass time. *)
Definition adapt_goes_on (l : @loopState Proc) (walkTime : Z) : Prop :=
  match pc l with
  | Adapting =>
      exists p, nextRateLimitPeriod (rateLimitPeriod l) walkTime = Some p /\ 0 < p
  | _ => True
  end.

End Invariant.

(** ** Concrete data for the examples *)

Definition demo_reader : @System unit nat := newBackgroundReader tt.
Definition demo_sockets : option (gmap N nat) := Some {[ 7%N := 42%nat ]}.
Definition bytes_A : list Byte.byte := [Byte.x41].
Definition bytes_B : list Byte.byte := [Byte.x42].

(** The state a trace leads to from [demo_reader] (the reader itself when
    some event of the trace is not enabled). *)
Definition demo_state (tr : list (@event nat)) : @System unit nat :=
  match run tr demo_reader with
  | Some (s, _) => s
  | None => demo_reader
  end.

Definition demo_outputs (tr : list (@event nat)) : list (@output nat) :=
  match run tr demo_reader with
  | Some (_, outs) => outs
  | None => []
  end.


(** One full pass that took 20 s. *)
Definition trace_slow_pass : list (@event nat) :=
  [CallStart; WalkerWrite bytes_A; WalkerReturn demo_sockets None; LoopPublish;
   LoopAdapt (20 * Second)].

(** One pass that succeeds and is published. *)
Definition trace_one_pass : list (@event nat) :=
  [CallStart; WalkerWrite bytes_A; WalkerReturn demo_sockets None; LoopPublish].

(** The reader started, the walker at work. *)
Definition trace_walking : list (@event nat) := [CallStart; WalkerWrite bytes_A].

(** A stop during the first walk, which then fails twice. *)
Definition trace_stop_then_failures : list (@event nat) :=
  [CallStart; CallStop; WalkerReturn None (Some "boom"%string);
   WalkerReturn None (Some "boom"%string)].


(** ** The same law on the kernel's hardware floats, for comparison *)

Definition hw_of_int (z : Z) : PrimFloat.float :=
  if z <? 0 then PrimFloat.opp (PrimFloat.of_uint63 (Uint63.of_Z (- z)))
  else PrimFloat.of_uint63 (Uint63.of_Z z).

Definition hw_scaledRateLimitPeriod (target rateLimitPeriod walkTime : Z) : spec_float :=
  Prim2SF (PrimFloat.mul (PrimFloat.div (hw_of_int target) (hw_of_int walkTime))
             (hw_of_int rateLimitPeriod)).

Definition hw_walkRatio (target walkTime : Z) : spec_float :=
  Prim2SF (PrimFloat.div (hw_of_int walkTime) (hw_of_int target)).

Definition same_float (x y : spec_float) : bool :=
  match x, y with
  | S754_zero a, S754_zero b | S754_infinity a, S754_infinity b => Bool.eqb a b
  | S754_nan, S754_nan => true
  | S754_finite a m e, S754_finite b n f => Bool.eqb a b && Pos.eqb m n && Z.eqb e f
  | _, _ => false
  end.

(** Pass times and periods on which the two are compared. *)
Definition sample_walk_times : list Z :=
  [0; 1; 2; 3; 7; 999999999; 3 * Second; 10 * Second; 15 * Second; 15 * Second + 1;
   20 * Second; 10 * Second + 1; 123456789123; 2 ^ 53 + 1; 2 ^ 62 + 1; 2 ^ 63 - 1; -1; -3 * Second].
Definition sample_periods : list Z :=
  [0; 1; 3; 5 * Millisecond; 25 * Millisecond; 50 * Millisecond; 123456789;
   250 * Millisecond; 2 ^ 53 + 3; 2 ^ 63 - 1; -5].



(** A pass of 10^18 ns, after which the scaled period is below 1 ns. *)
Definition trace_endless_pass : list (@event nat) :=
  trace_one_pass ++ [LoopAdapt (10 ^ 18)].

(** The errors of the failed walks of a trace, oldest first. *)
Fixpoint walk_errors {Proc : Type} (tr : list (@event Proc)) : list error :=
  match tr with
  | [] => []
  | WalkerReturn _ (Some e) :: tr' => e :: walk_errors tr'
  | _ :: tr' => walk_errors tr'
  end.

(** The pass times measured in a trace, oldest first, and those of them
    above one and a half times the target. *)
Fixpoint pass_times {Proc : Type} (tr : list (@event Proc)) : list Z :=
  match tr with
  | [] => []
  | LoopAdapt walkTime :: tr' => walkTime :: pass_times tr'
  | _ :: tr' => pass_times tr'
  end.

Definition slow_passes {Proc : Type} (tr : list (@event Proc)) : list Z :=
  List.filter (fun walkTime => 3 * targetWalkTime <? 2 * walkTime) (pass_times tr).

(** What the log holds, oldest first: the errors (line 77), the pass times
    (line 101) and the warnings (line 103). *)
Definition logged_errors (lg : list logEntry) : list error :=
  rev (flat_map (fun e => match e with Errorf_walking x => [x] | _ => [] end) lg).

Definition logged_passes (lg : list logEntry) : list Z :=
  rev (flat_map (fun e => match e with Debugf_pass t => [t] | _ => [] end) lg).

Definition logged_warnings (lg : list logEntry) : list Z :=
  rev (flat_map (fun e => match e with Warnf_slow t _ => [t] | _ => [] end) lg).

(** A walk that fails, a pass of 16 s, a pass of 15 s. *)
Definition trace_logging : list (@event nat) :=
  [CallStart; WalkerReturn None (Some "EACCES"%string);
   WalkerReturn None None; LoopPublish; LoopAdapt (16 * Second); LoopReset; LoopSleep;
   WalkerReturn None None; LoopPublish; LoopAdapt (15 * Second)].

(** * Proofs *)

Section PowersOfTwo.
Import Float64.
Open Scope Q_scope.

Lemma two_neq_0 : ~ 2 == 0.
Proof. intro H. discriminate H. Qed.

Lemma pow2_pos k : 0 < pow2 k.
Proof. apply Qpower_0_lt. reflexivity. Qed.

Lemma pow2_add a b : pow2 (a + b) == pow2 a * pow2 b.
Proof. apply Qpower_plus, two_neq_0. Qed.

Lemma pow2_succ a : pow2 (a + 1) == 2 * pow2 a.
Proof. rewrite pow2_add. unfold pow2 at 2. simpl Qpower. ring. Qed.

Lemma pow2_le a b : (a <= b)%Z -> pow2 a <= pow2 b.
Proof. intros H. apply Qpower_le_compat_l; [exact H | discriminate]. Qed.

Lemma pow2_lt_inv a b : pow2 a < pow2 b -> (a < b)%Z.
Proof. intros H. apply (Qpower_lt_compat_l_inv 2); [exact H | reflexivity]. Qed.

Lemma pow2_Z n : (0 <= n)%Z -> inject_Z (2 ^ n) == pow2 n.
Proof. intros H. unfold pow2. rewrite Zpower_Qpower by exact H. reflexivity. Qed.

Lemma div_pow2 x a : x / pow2 a == x * pow2 (- a).
Proof.
  unfold pow2. rewrite Qpower_opp. reflexivity.
Qed.
End PowersOfTwo.

Section Rounding.
Import Float64.
Open Scope Q_scope.

Lemma round_half_even_near y :
  y - (1 # 2) <= inject_Z (round_half_even y) <= y + (1 # 2).
Proof.
  unfold round_half_even.
  pose proof (Qfloor_le y) as Hlo. pose proof (Qlt_floor y) as Hhi.
  rewrite inject_Z_plus in Hhi. change (inject_Z 1) with 1 in Hhi.
  destruct (Qcompare_spec (y - inject_Z (Qfloor y)) (1 # 2)) as [He | Hl | Hg].
  - destruct (Z.even (Qfloor y)).
    + lra.
    + rewrite inject_Z_plus. change (inject_Z 1) with 1. lra.
  - lra.
  - rewrite inject_Z_plus. change (inject_Z 1) with 1. lra.
Qed.

(** Cancelling a positive factor. *)
Lemma Qmult_lt_cancel c a b : 0 < c -> a * c < b * c -> a < b.
Proof. intros Hc H. apply Qmult_lt_r in H; assumption. Qed.

Lemma Qmult_le_cancel c a b : 0 < c -> a * c <= b * c -> a <= b.
Proof. intros Hc H. apply Qmult_le_r in H; assumption. Qed.

Lemma Q_num_den x : x * inject_Z (Zpos (Qden x)) == inject_Z (Qnum x).
Proof.
  destruct x as [a b]. simpl Qnum. simpl Qden.
  rewrite (Qmake_Qdiv a b). field. discriminate.
Qed.

Lemma Qnum_pos x : 0 < x -> (0 < Qnum x)%Z.
Proof. destruct x as [a b]. unfold Qlt. simpl. lia. Qed.

Lemma log2_bracket n :
  (0 < n)%Z -> pow2 (Z.log2 n) <= inject_Z n /\ inject_Z n < 2 * pow2 (Z.log2 n).
Proof.
  intros Hn. destruct (Z.log2_spec n Hn) as [Hlo Hhi].
  pose proof (Z.log2_nonneg n) as H0.
  rewrite <- pow2_succ. rewrite <- !pow2_Z by lia.
  rewrite <- Zle_Qle, <- Zlt_Qlt. split; [exact Hlo | exact Hhi].
Qed.

(** The exponent chosen for a positive rational, before it is limited
    below by [emin], brackets it between two powers of two. *)
Lemma exponent_for_bracket x :
  0 < x ->
  exists k, exponent_for x = Z.max k emin /\
            pow2 (prec - 1) * pow2 k <= x /\ x < pow2 prec * pow2 k.
Proof.
  intros Hx. unfold exponent_for.
  set (a := Qnum x). set (b := Zpos (Qden x)).
  set (k0 := (Z.log2 a - Z.log2 b - prec)%Z).
  assert (Ha : (0 < a)%Z) by (apply Qnum_pos; exact Hx).
  assert (Hb : (0 < b)%Z) by reflexivity.
  destruct (log2_bracket a Ha) as [Ha1 Ha2].
  destruct (log2_bracket b Hb) as [Hb1 Hb2].
  pose proof (Q_num_den x) as Hxab. fold a b in Hxab.
  assert (Hk0 : pow2 (Z.log2 a) == pow2 k0 * pow2 (Z.log2 b) * pow2 prec).
  { rewrite <- !pow2_add. unfold k0.
    replace (Z.log2 a - Z.log2 b - prec + Z.log2 b + prec)%Z with (Z.log2 a) by lia.
    reflexivity. }
  assert (Hp : pow2 prec == 2 * pow2 (prec - 1)).
  { rewrite <- pow2_succ. replace (prec - 1 + 1)%Z with prec by lia. reflexivity. }
  pose proof (pow2_pos k0) as HK. pose proof (pow2_pos (Z.log2 b)) as HPB.
  pose proof (pow2_pos (prec - 1)) as Hc.
  set (K := pow2 k0) in *. set (PB := pow2 (Z.log2 b)) in *.
  set (PA := pow2 (Z.log2 a)) in *. set (c := pow2 (prec - 1)) in *.
  set (A := inject_Z a) in *. set (B := inject_Z b) in *.
  assert (Hlow : c * K < x).
  { apply (Qmult_lt_cancel (2 * PB)); [lra |].
    apply Qle_lt_trans with (x * B).
    - assert (H : c * K * (2 * PB) == PA) by (rewrite Hk0, Hp; ring).
      rewrite H, Hxab. exact Ha1.
    - assert (H : x * (2 * PB) - x * B == x * (2 * PB - B)) by ring.
      assert (0 < x * (2 * PB - B)) by (apply Qmult_lt_0_compat; lra).
      lra. }
  assert (Hupp : x < 2 * pow2 prec * K).
  { apply (Qmult_lt_cancel PB); [lra |].
    apply Qle_lt_trans with (x * B).
    - assert (H : x * B - x * PB == x * (B - PB)) by ring.
      assert (0 <= x * (B - PB)) by (apply Qmult_le_0_compat; lra).
      lra.
    - assert (H : 2 * pow2 prec * K * PB == 2 * PA) by (rewrite Hk0; ring).
      rewrite H, Hxab. exact Ha2. }
  assert (HK1 : pow2 (k0 + 1) == 2 * K) by apply pow2_succ.
  destruct (Qle_bool (pow2 prec) (x / K)) eqn:Hcmp.
  - apply Qle_bool_iff in Hcmp.
    exists (k0 + 1)%Z. split; [reflexivity |].
    assert (Hge : pow2 prec * K <= x).
    { apply (Qmult_le_r _ _ K HK) in Hcmp.
      assert (Hs : x / K * K == x) by (field; lra).
      rewrite Hs in Hcmp. exact Hcmp. }
    rewrite HK1. split; [| lra].
    fold c. rewrite Hp in Hge. lra.
  - exists k0. split; [reflexivity |]. fold K c. split; [lra |].
    destruct (Qlt_le_dec x (pow2 prec * K)) as [Hlt | Hge]; [exact Hlt | exfalso].
    assert (Hq : pow2 prec <= x / K).
    { apply (Qmult_le_cancel K); [exact HK |].
      assert (Hs : x / K * K == x) by (field; lra).
      rewrite Hs. exact Hge. }
    apply Qle_bool_iff in Hq. rewrite Hq in Hcmp. discriminate.
Qed.
End Rounding.

Section RoundPos.
Import Float64.
Open Scope Q_scope.

Lemma u_prec : unit_roundoff * pow2 prec == 1.
Proof. unfold unit_roundoff. rewrite <- pow2_add. replace (- prec + prec)%Z with 0%Z by lia. reflexivity. Qed.

Lemma pow2_prec_half : pow2 prec == 2 * pow2 (prec - 1).
Proof. rewrite <- pow2_succ. replace (prec - 1 + 1)%Z with prec by lia. reflexivity. Qed.

(** In the range of the normal numbers, [round_pos] returns a finite
    float within a relative distance [unit_roundoff] of its argument. *)
Lemma round_pos_normal s x :
  pow2 (emin + prec - 1) <= x -> x < pow2 (emax - 1) ->
  exists m k, round_pos s x = S754_finite s m k /\
              (1 - unit_roundoff) * x <= magnitude m k /\ magnitude m k <= (1 + unit_roundoff) * x.
Proof.
  intros Hlo Hhi.
  assert (Hx : 0 < x) by (pose proof (pow2_pos (emin + prec - 1)); lra).
  destruct (exponent_for_bracket x Hx) as (k & Hk & Hb1 & Hb2).
  pose proof (pow2_pos k) as HK. pose proof (pow2_pos (prec - 1)) as Hc.
  pose proof pow2_prec_half as Hp. pose proof u_prec as Hu.
  assert (Hkmin : (emin <= k)%Z).
  { destruct (Z_le_gt_dec emin k) as [H | H]; [exact H | exfalso].
    assert (H1 : pow2 k <= pow2 (emin - 1)) by (apply pow2_le; lia).
    assert (H2 : pow2 (emin + prec - 1) == pow2 prec * pow2 (emin - 1)).
    { rewrite <- pow2_add. replace (prec + (emin - 1))%Z with (emin + prec - 1)%Z by lia.
      reflexivity. }
    pose proof (pow2_pos prec) as Hpp.
    assert (H3 : pow2 prec * pow2 k <= pow2 prec * pow2 (emin - 1)).
    { rewrite !(Qmult_comm (pow2 prec)). apply Qmult_le_compat_r; lra. }
    lra. }
  assert (Hkmax : (k + 1 <= emax - prec)%Z).
  { assert (H : pow2 (prec - 1 + k) < pow2 (emax - 1)) by (rewrite pow2_add; lra).
    apply pow2_lt_inv in H. revert H. unfold prec. unfold emax. intros H. lia. }
  unfold round_pos. rewrite Hk. rewrite Z.max_l by lia.
  set (y := x / pow2 k).
  assert (Hy : y * pow2 k == x) by (unfold y; field; lra).
  pose proof (round_half_even_near y) as [Hr1 Hr2].
  set (m0 := round_half_even y) in *.
  assert (Hy1 : pow2 (prec - 1) <= y).
  { apply (Qmult_le_cancel (pow2 k)); [exact HK |]. rewrite Hy. exact Hb1. }
  assert (Hy2 : y < pow2 prec).
  { apply (Qmult_lt_cancel (pow2 k)); [exact HK |]. rewrite Hy. exact Hb2. }
  assert (Hm1 : (2 ^ (prec - 1) <= m0)%Z).
  { assert (H : (2 ^ (prec - 1) < m0 + 1)%Z).
    { rewrite Zlt_Qlt. rewrite inject_Z_plus, pow2_Z by (unfold prec; lia).
      change (inject_Z 1) with 1. lra. }
    lia. }
  assert (Hm2 : (m0 <= 2 ^ prec)%Z).
  { assert (H : (m0 < 2 ^ prec + 1)%Z).
    { rewrite Zlt_Qlt. rewrite inject_Z_plus, pow2_Z by (unfold prec; lia).
      change (inject_Z 1) with 1. lra. }
    lia. }
  assert (Herr : (1 - unit_roundoff) * x <= inject_Z m0 * pow2 k /\ inject_Z m0 * pow2 k <= (1 + unit_roundoff) * x).
  { assert (Hhalf : (1 # 2) * pow2 k <= unit_roundoff * x).
    { assert (H : (1 # 2) * pow2 k == unit_roundoff * (pow2 (prec - 1) * pow2 k)).
      { transitivity ((unit_roundoff * pow2 prec) * ((1 # 2) * pow2 k)); [rewrite Hu; ring |].
        rewrite Hp. ring. }
      rewrite H. rewrite !(Qmult_comm unit_roundoff). apply Qmult_le_compat_r; [exact Hb1 |].
      unfold unit_roundoff. apply Qlt_le_weak, pow2_pos. }
    assert (H1 : (inject_Z m0 - y) * pow2 k <= (1 # 2) * pow2 k)
      by (apply Qmult_le_compat_r; lra).
    assert (H2 : (- (1 # 2)) * pow2 k <= (inject_Z m0 - y) * pow2 k)
      by (apply Qmult_le_compat_r; lra).
    assert (H3 : (inject_Z m0 - y) * pow2 k == inject_Z m0 * pow2 k - x)
      by (rewrite <- Hy; ring).
    lra. }
  destruct (Z.eqb_spec m0 (2 ^ prec)) as [Heq | Hne].
  - change (2 ^ (prec - 1))%Z with (Zpos (2 ^ 52)).
    rewrite (proj2 (Z.leb_le (k + 1) (emax - prec)) Hkmax).
    exists (2 ^ 52)%positive, (k + 1)%Z. split; [reflexivity |].
    assert (Hmag : magnitude (2 ^ 52) (k + 1) == inject_Z m0 * pow2 k).
    { unfold magnitude. rewrite Heq, pow2_succ.
      change (Zpos (2 ^ 52)) with (2 ^ (prec - 1))%Z.
      rewrite !pow2_Z by (unfold prec; lia). rewrite Hp. ring. }
    rewrite Hmag. exact Herr.
  - destruct m0 as [| p | p] eqn:Hm0; try (unfold prec in Hm1; simpl in Hm1; lia).
    assert (Hle : (k <=? emax - prec)%Z = true) by (apply Z.leb_le; lia).
    rewrite Hle. exists p, k. split; [reflexivity |]. exact Herr.
Qed.
End RoundPos.

Section Chain.
Import Float64.
Open Scope Q_scope.

Lemma Qmult_le_mono a b c d : 0 <= a -> a <= b -> 0 <= c -> c <= d -> a * c <= b * d.
Proof.
  intros Ha Hab Hc Hcd.
  apply Qle_trans with (b * c).
  - apply Qmult_le_compat_r; assumption.
  - rewrite !(Qmult_comm b). apply Qmult_le_compat_r; [assumption | lra].
Qed.

(** Four roundings, each within [v] relatively, move [p * T / e] by at
    most [5 v] relatively. *)
Lemma four_roundings v e E T D p P S :
  0 <= v -> v <= 1 # 16 -> 0 < e -> 0 < T -> 0 < p ->
  (1 - v) * e <= E -> E <= (1 + v) * e ->
  (1 - v) * T <= D * E -> D * E <= (1 + v) * T ->
  (1 - v) * p <= P -> P <= (1 + v) * p ->
  (1 - v) * (D * P) <= S -> S <= (1 + v) * (D * P) ->
  (1 - 5 * v) * (p * T) <= S * e /\ S * e <= (1 + 5 * v) * (p * T).
Proof.
  intros Hv0 Hv1 He HT Hp HE1 HE2 HD1 HD2 HP1 HP2 HS1 HS2.
  assert (HEpos : 0 < E) by nra.
  assert (HPpos : 0 < P) by nra.
  assert (HDpos : 0 < D) by nra.
  assert (HSpos : 0 <= S) by nra.
  (* S * E against T * p *)
  assert (HSE2 : S * E <= (1 + v) * ((1 + v) * T) * ((1 + v) * p)).
  { apply Qle_trans with ((1 + v) * (D * P) * E).
    - apply Qmult_le_compat_r; lra.
    - assert (H : (1 + v) * (D * P) * E == (1 + v) * (D * E) * P) by ring.
      rewrite H. apply Qmult_le_mono; try lra; try nra. }
  assert (HSE1 : (1 - v) * ((1 - v) * T) * ((1 - v) * p) <= S * E).
  { apply Qle_trans with ((1 - v) * (D * P) * E).
    - assert (H : (1 - v) * (D * P) * E == (1 - v) * (D * E) * P) by ring.
      rewrite H. apply Qmult_le_mono; try lra; try nra.
    - apply Qmult_le_compat_r; lra. }
  assert (Hup : S * ((1 - v) * e) <= S * E).
  { rewrite !(Qmult_comm S). apply Qmult_le_compat_r; lra. }
  assert (Hdn : S * E <= S * ((1 + v) * e)).
  { rewrite !(Qmult_comm S). apply Qmult_le_compat_r; lra. }
  assert (HpT : 0 < p * T) by (apply Qmult_lt_0_compat; assumption).
  set (X := p * T) in *. set (W := S * e) in *.
  assert (H1 : S * ((1 - v) * e) == (1 - v) * W) by (unfold W; ring).
  assert (H2 : S * ((1 + v) * e) == (1 + v) * W) by (unfold W; ring).
  assert (H3 : (1 + v) * ((1 + v) * T) * ((1 + v) * p) == (1 + v) * (1 + v) * (1 + v) * X)
    by (unfold X; ring).
  assert (H4 : (1 - v) * ((1 - v) * T) * ((1 - v) * p) == (1 - v) * (1 - v) * (1 - v) * X)
    by (unfold X; ring).
  rewrite H1 in Hup. rewrite H2 in Hdn. rewrite H3 in HSE2. rewrite H4 in HSE1.
  assert (Hc1 : (1 + v) * (1 + v) * (1 + v) <= (1 + 5 * v) * (1 - v)) by nra.
  assert (Hc2 : (1 - 5 * v) * (1 + v) <= (1 - v) * (1 - v) * (1 - v)) by nra.
  split.
  - apply (Qmult_le_cancel (1 + v)); [lra |].
    apply Qle_trans with ((1 - v) * (1 - v) * (1 - v) * X).
    + assert (H : (1 - 5 * v) * X * (1 + v) == (1 - 5 * v) * (1 + v) * X) by ring.
      rewrite H. apply Qmult_le_compat_r; lra.
    + lra.
  - apply (Qmult_le_cancel (1 - v)); [lra |].
    apply Qle_trans with ((1 + v) * (1 + v) * (1 + v) * X).
    + lra.
    + assert (H : (1 + 5 * v) * X * (1 - v) == (1 + 5 * v) * (1 - v) * X) by ring.
      rewrite H. apply Qmult_le_compat_r; lra.
Qed.
End Chain.

Section Law.
Import Float64.
Open Scope Q_scope.

Lemma u_bounds : 0 < unit_roundoff /\ unit_roundoff <= 1 # 16.
Proof.
  split; [apply pow2_pos |].
  assert (H : pow2 (- prec) <= pow2 (- 4)) by (apply pow2_le; unfold prec; lia).
  exact H.
Qed.

Lemma normal_range x :
  (1 # 1099511627776) <= x -> x <= inject_Z (2 ^ 100) ->
  pow2 (emin + prec - 1) <= x /\ x < pow2 (emax - 1).
Proof.
  intros H1 H2. split.
  - apply Qle_trans with (pow2 (- 40)); [apply pow2_le; unfold emin, emax, prec; lia | exact H1].
  - apply Qle_lt_trans with (pow2 100); [rewrite <- pow2_Z by lia; exact H2 |].
    apply Qpower_lt_compat_l; [unfold emax; lia | reflexivity].
Qed.

Lemma of_int_pos z :
  (0 < z <= max_int64)%Z ->
  exists m k, of_int z = S754_finite false m k /\
              (1 - unit_roundoff) * inject_Z z <= magnitude m k /\
              magnitude m k <= (1 + unit_roundoff) * inject_Z z.
Proof.
  intros [Hz1 Hz2]. destruct z as [| p | p]; try lia.
  unfold of_int. apply round_pos_normal.
  - apply normal_range.
    + apply Qle_trans with 1; [discriminate |].
      change 1 with (inject_Z 1). rewrite <- Zle_Qle. lia.
    + rewrite <- Zle_Qle. unfold max_int64 in Hz2. lia.
  - apply normal_range.
    + apply Qle_trans with 1; [discriminate |].
      change 1 with (inject_Z 1). rewrite <- Zle_Qle. lia.
    + rewrite <- Zle_Qle. unfold max_int64 in Hz2. lia.
Qed.

Lemma targetWalkTimeF_value :
  RateLimit.targetWalkTimeF targetWalkTime = S754_finite false 5242880000000000 (-19).
Proof. vm_compute. reflexivity. Qed.

Lemma targetWalkTimeF_exact :
  magnitude 5242880000000000 (-19) == inject_Z targetWalkTime.
Proof. vm_compute. reflexivity. Qed.

Lemma maxRateLimitPeriodF_value :
  RateLimit.maxRateLimitPeriodF maxRateLimitPeriod = S754_finite false 8388608000000000 (-25).
Proof. vm_compute. reflexivity. Qed.

Lemma maxRateLimitPeriodF_exact :
  magnitude 8388608000000000 (-25) == inject_Z maxRateLimitPeriod.
Proof. vm_compute. reflexivity. Qed.

(** The scaled period is a positive finite float within [5 unit_roundoff] of
    [p * targetWalkTime / e], relatively. *)
Lemma scaled_close p e :
  (0 < p <= max_int64)%Z -> (0 < e <= max_int64)%Z ->
  exists m k,
    RateLimit.scaledRateLimitPeriod targetWalkTime p e = S754_finite false m k /\
    (1 - 5 * unit_roundoff) * (inject_Z p * inject_Z targetWalkTime) <= magnitude m k * inject_Z e /\
    magnitude m k * inject_Z e <= (1 + 5 * unit_roundoff) * (inject_Z p * inject_Z targetWalkTime).
Proof.
  intros Hp He.
  destruct (of_int_pos e He) as (me & ke & Hfe & HE1 & HE2).
  destruct (of_int_pos p Hp) as (mp & kp & Hfp & HP1 & HP2).
  destruct u_bounds as [Hu0 Hu1].
  assert (He1 : 1 <= inject_Z e) by (change 1 with (inject_Z 1); rewrite <- Zle_Qle; lia).
  assert (He2 : inject_Z e <= inject_Z (2 ^ 63))
    by (rewrite <- Zle_Qle; unfold max_int64 in He; lia).
  assert (Hp1 : 1 <= inject_Z p) by (change 1 with (inject_Z 1); rewrite <- Zle_Qle; lia).
  assert (Hp2 : inject_Z p <= inject_Z (2 ^ 63))
    by (rewrite <- Zle_Qle; unfold max_int64 in Hp; lia).
  unfold RateLimit.scaledRateLimitPeriod.
  rewrite targetWalkTimeF_value, Hfe, Hfp.
  pose proof targetWalkTimeF_exact as HT.
  assert (HTv : inject_Z targetWalkTime == 10000000000) by reflexivity.
  set (E := magnitude me ke) in *. set (P := magnitude mp kp) in *.
  set (e' := inject_Z e) in *. set (p' := inject_Z p) in *.
  set (T := inject_Z targetWalkTime) in *.
  change (inject_Z (2 ^ 63)) with 9223372036854775808 in *.
  assert (HEl : 15 # 16 <= E).
  { apply Qle_trans with ((1 - unit_roundoff) * e'); [| exact HE1].
    apply Qle_trans with ((15 # 16) * 1); [lra |]. apply Qmult_le_mono; lra. }
  assert (HEh : E <= (17 # 16) * 9223372036854775808).
  { apply Qle_trans with ((1 + unit_roundoff) * e'); [exact HE2 |]. apply Qmult_le_mono; lra. }
  assert (HPl : 15 # 16 <= P).
  { apply Qle_trans with ((1 - unit_roundoff) * p'); [| exact HP1].
    apply Qle_trans with ((15 # 16) * 1); [lra |]. apply Qmult_le_mono; lra. }
  assert (HPh : P <= (17 # 16) * 9223372036854775808).
  { apply Qle_trans with ((1 + unit_roundoff) * p'); [exact HP2 |]. apply Qmult_le_mono; lra. }
  assert (HEpos : 0 < E) by lra.
  (* the quotient *)
  set (x1 := magnitude 5242880000000000 (-19) / E).
  assert (Hx1 : x1 * E == T) by (unfold x1; rewrite HT; field; lra).
  assert (Hx1lo : 1 # 2147483648 <= x1).
  { apply (Qmult_le_cancel E); [exact HEpos |]. rewrite Hx1. lra. }
  assert (Hx1hi : x1 <= 34359738368).
  { apply (Qmult_le_cancel E); [exact HEpos |]. rewrite Hx1. lra. }
  destruct (round_pos_normal false x1) as (md & kd & Hfd & HD1 & HD2).
  { apply normal_range; [| change (inject_Z (2 ^ 100)) with (1267650600228229401496703205376)]; lra. }
  { apply normal_range; [| change (inject_Z (2 ^ 100)) with (1267650600228229401496703205376)]; lra. }
  change (div (S754_finite false 5242880000000000 (-19)) (S754_finite false me ke))
    with (round_pos false x1).
  rewrite Hfd.
  set (D := magnitude md kd) in *.
  assert (HDE1 : (1 - unit_roundoff) * T <= D * E).
  { rewrite <- Hx1. rewrite Qmult_assoc. apply Qmult_le_compat_r; lra. }
  assert (HDE2 : D * E <= (1 + unit_roundoff) * T).
  { rewrite <- Hx1. rewrite Qmult_assoc. apply Qmult_le_compat_r; lra. }
  assert (HDlo : 1 # 4294967296 <= D).
  { apply Qle_trans with ((1 - unit_roundoff) * x1); [| exact HD1].
    apply Qle_trans with ((15 # 16) * (1 # 2147483648)); [discriminate |].
    apply Qmult_le_mono; lra. }
  assert (HDhi : D <= 68719476736).
  { apply Qle_trans with ((1 + unit_roundoff) * x1); [exact HD2 |].
    apply Qle_trans with ((17 # 16) * 34359738368); [| discriminate].
    apply Qmult_le_mono; lra. }
  (* the product *)
  assert (Hx2lo : 1 # 17179869184 <= D * P).
  { apply Qle_trans with ((1 # 4294967296) * (15 # 16)); [discriminate |].
    apply Qmult_le_mono; lra. }
  assert (Hx2hi : D * P <= 1267650600228229401496703205376).
  { apply Qle_trans with (68719476736 * ((17 # 16) * 9223372036854775808)); [| discriminate].
    apply Qmult_le_mono; lra. }
  destruct (round_pos_normal false (D * P)) as (ms & ks & Hfs & HS1 & HS2).
  { apply normal_range; [| change (inject_Z (2 ^ 100)) with (1267650600228229401496703205376)];
      [lra | exact Hx2hi]. }
  { apply normal_range; [| change (inject_Z (2 ^ 100)) with (1267650600228229401496703205376)];
      [lra | exact Hx2hi]. }
  change (mul (S754_finite false md kd) (S754_finite false mp kp))
    with (round_pos false (D * P)).
  rewrite Hfs.
  exists ms, ks. split; [reflexivity |].
  apply (four_roundings unit_roundoff e' E T D p' P); try lra.
Qed.
End Law.

Section Conversion.
Import Float64.
Open Scope Q_scope.

Lemma magnitude_pos m k : 0 < magnitude m k.
Proof.
  unfold magnitude. apply Qmult_lt_0_compat; [| apply pow2_pos].
  change 0 with (inject_Z 0). rewrite <- Zlt_Qlt. reflexivity.
Qed.

Lemma Qfloor_quot q : 0 <= q -> Z.quot (Qnum q) (Zpos (Qden q)) = Qfloor q.
Proof.
  destruct q as [a b]. unfold Qle. simpl. intros H.
  apply Z.quot_div_nonneg; lia.
Qed.

Lemma quot_nonpos q : q <= 0 -> (Z.quot (Qnum q) (Zpos (Qden q)) <= 0)%Z.
Proof.
  destruct q as [a b]. unfold Qle. simpl. intros H.
  assert (Ha : (a <= 0)%Z) by lia.
  replace a with (- (- a))%Z by lia. rewrite Z.quot_opp_l by discriminate.
  pose proof (Z.quot_pos (- a) (Zpos b)). lia.
Qed.

(** Truncation never moves a value below a non-negative integer bound
    above it. *)
Lemma truncate_le q (B : Z) :
  (0 <= B)%Z -> q <= inject_Z B -> (Z.quot (Qnum q) (Zpos (Qden q)) <= B)%Z.
Proof.
  intros HB Hq. destruct (Qlt_le_dec q 0) as [Hneg | Hpos].
  - pose proof (quot_nonpos q (Qlt_le_weak _ _ Hneg)). lia.
  - rewrite Qfloor_quot by exact Hpos.
    rewrite <- (Qfloor_Z B). apply Qfloor_resp_le. exact Hq.
Qed.

Lemma to_int64_le x (B r : Z) :
  (0 <= B)%Z -> F2Q x <= inject_Z B -> to_int64 x = Some r -> (r <= B)%Z.
Proof.
  intros HB Hx. destruct x as [s | s | | s m k]; simpl to_int64; try discriminate.
  - intros [= <-]. exact HB.
  - destruct (_ && _); [| discriminate]. intros [= <-].
    apply truncate_le; assumption.
Qed.

Lemma to_int64_pos m k (B : Z) :
  (B <= max_int64)%Z -> magnitude m k <= inject_Z B ->
  to_int64 (S754_finite false m k) = Some (Qfloor (magnitude m k)).
Proof.
  intros HB Hm. pose proof (magnitude_pos m k) as Hpos.
  cbn [to_int64 F2Q]. rewrite Qfloor_quot by (apply Qlt_le_weak; exact Hpos).
  assert (H0 : (0 <= Qfloor (magnitude m k))%Z).
  { rewrite <- (Qfloor_Z 0). apply Qfloor_resp_le. change (inject_Z 0) with 0. lra. }
  assert (H1 : (Qfloor (magnitude m k) <= B)%Z).
  { rewrite <- (Qfloor_Z B). apply Qfloor_resp_le. exact Hm. }
  assert (Hr : (min_int64 <=? Qfloor (magnitude m k))%Z && (Qfloor (magnitude m k) <=? max_int64)%Z = true).
  { apply andb_true_intro. split; apply Z.leb_le; unfold min_int64, max_int64 in *; lia. }
  rewrite Hr. reflexivity.
Qed.

Lemma to_int64_maxF : to_int64 maxF = Some maxRateLimitPeriod.
Proof. vm_compute. reflexivity. Qed.

(** [math.Min(x, maxRateLimitPeriodF)], converted: never above the
    maximum, whatever [x] is. *)
Lemma Min_maxF_le x r :
  to_int64 (Min x maxF) = Some r -> (r <= maxRateLimitPeriod)%Z.
Proof.
  pose proof maxRateLimitPeriodF_exact as HM.
  destruct x as [s | [|] | | s m k]; cbn [Min is_zero signbit andb].
  - cbn [ltb F2Q]. destruct (Qcompare_spec 0 (magnitude 8388608000000000 (-25))) as [H|H|H].
    + intros Hr. rewrite to_int64_maxF in Hr. injection Hr as <-. lia.
    + intros [= <-]. discriminate.
    + intros Hr. rewrite to_int64_maxF in Hr. injection Hr as <-. lia.
  - discriminate.
  - cbn [ltb]. intros Hr. rewrite to_int64_maxF in Hr. injection Hr as <-. lia.
  - discriminate.
  - cbn [ltb]. destruct (Qcompare_spec (F2Q (S754_finite s m k)) (F2Q maxF)) as [H|H|H].
    + intros Hr. rewrite to_int64_maxF in Hr. injection Hr as <-. lia.
    + apply to_int64_le; [discriminate |]. cbn [F2Q] in H |- *. rewrite <- HM.
      apply Qlt_le_weak. exact H.
    + intros Hr. rewrite to_int64_maxF in Hr. injection Hr as <-. lia.
Qed.

Lemma next_le_max p e r :
  nextRateLimitPeriod p e = Some r -> (r <= maxRateLimitPeriod)%Z.
Proof.
  unfold nextRateLimitPeriod, RateLimit.next. rewrite maxRateLimitPeriodF_value.
  apply Min_maxF_le.
Qed.
End Conversion.

Section Main.
Import Float64.
Open Scope Q_scope.

Lemma u_small : unit_roundoff <= 1 # 8589934592.
Proof.
  assert (H : pow2 (- prec) <= pow2 (- 33)) by (apply pow2_le; unfold prec; lia).
  exact H.
Qed.

Lemma floor_close a b :
  a - (1 # 4) <= b -> b <= a + (1 # 4) ->
  (Qfloor a - 1 <= Qfloor b <= Qfloor a + 1)%Z.
Proof.
  intros H1 H2.
  pose proof (Qfloor_le a) as Ha1. pose proof (Qlt_floor a) as Ha2.
  pose proof (Qfloor_le b) as Hb1. pose proof (Qlt_floor b) as Hb2.
  rewrite inject_Z_plus in Ha2, Hb2. change (inject_Z 1) with 1 in Ha2, Hb2.
  assert (Hx : (Qfloor b < Qfloor a + 2)%Z).
  { rewrite Zlt_Qlt, inject_Z_plus. change (inject_Z 2) with 2. lra. }
  assert (Hy : (Qfloor a < Qfloor b + 2)%Z).
  { rewrite Zlt_Qlt, inject_Z_plus. change (inject_Z 2) with 2. lra. }
  lia.
Qed.

Lemma next_zero_elapsed p :
  (0 < p <= max_int64)%Z -> nextRateLimitPeriod p 0 = Some maxRateLimitPeriod.
Proof.
  intros Hp. destruct (of_int_pos p Hp) as (mp & kp & Hfp & _).
  unfold nextRateLimitPeriod, RateLimit.next, RateLimit.scaledRateLimitPeriod.
  rewrite targetWalkTimeF_value, maxRateLimitPeriodF_value, Hfp.
  cbn [of_int div mul xorb Min is_zero signbit andb ltb].
  apply to_int64_maxF.
Qed.

Lemma next_within_one p e :
  (0 < p <= max_int64)%Z -> (0 < e <= max_int64)%Z ->
  exists r, nextRateLimitPeriod p e = Some r /\
            (Qfloor (spec_next_period targetWalkTime maxRateLimitPeriod p e) - 1 <= r
             <= Qfloor (spec_next_period targetWalkTime maxRateLimitPeriod p e) + 1)%Z.
Proof.
  intros Hp He.
  destruct (scaled_close p e Hp He) as (m & k & Hs & HS1 & HS2).
  pose proof maxRateLimitPeriodF_exact as HM.
  destruct u_bounds as [Hu0 _]. pose proof u_small as Hu1.
  assert (He0 : 0 < inject_Z e) by (change 0 with (inject_Z 0); rewrite <- Zlt_Qlt; lia).
  assert (Hp0 : 0 < inject_Z p) by (change 0 with (inject_Z 0); rewrite <- Zlt_Qlt; lia).
  assert (HMv : inject_Z maxRateLimitPeriod == 250000000) by reflexivity.
  assert (HTv : inject_Z targetWalkTime == 10000000000) by reflexivity.
  unfold spec_next_period.
  set (X := inject_Z p * inject_Z targetWalkTime / inject_Z e).
  assert (HX : X * inject_Z e == inject_Z p * inject_Z targetWalkTime)
    by (unfold X; field; lra).
  assert (HX0 : 0 < X).
  { apply (Qmult_lt_cancel (inject_Z e)); [exact He0 |]. rewrite HX.
    assert (0 < inject_Z p * inject_Z targetWalkTime) by (apply Qmult_lt_0_compat; lra).
    lra. }
  set (S := magnitude m k) in *.
  rewrite <- HX in HS1, HS2.
  assert (HSX1 : (1 - 5 * unit_roundoff) * X <= S).
  { apply (Qmult_le_cancel (inject_Z e)); [exact He0 |].
    rewrite <- Qmult_assoc. exact HS1. }
  assert (HSX2 : S <= (1 + 5 * unit_roundoff) * X).
  { apply (Qmult_le_cancel (inject_Z e)); [exact He0 |].
    rewrite <- (Qmult_assoc (1 + 5 * unit_roundoff)). exact HS2. }
  set (M := inject_Z maxRateLimitPeriod) in *.
  (* the value of the minimum is within a quarter of the exact one *)
  assert (Hclose : forall Y, (S < M /\ Y == S) \/ (M <= S /\ Y == M) ->
                     Qmin M X - (1 # 4) <= Y /\ Y <= Qmin M X + (1 # 4)).
  { intros Y HY.
    assert (HuM : unit_roundoff * M <= 1 # 20) by (rewrite HMv; lra).
    destruct (Q.min_spec M X) as [[HMX Hmin] | [HXM Hmin]]; rewrite Hmin.
    - assert (Hlow : (1 - 5 * unit_roundoff) * M <= (1 - 5 * unit_roundoff) * X).
      { rewrite !(Qmult_comm (1 - 5 * unit_roundoff)). apply Qmult_le_compat_r; lra. }
      destruct HY as [[HSM HY] | [HSM HY]]; rewrite HY; lra.
    - assert (Hup : (5 * unit_roundoff) * X <= (5 * unit_roundoff) * M).
      { rewrite !(Qmult_comm (5 * unit_roundoff)). apply Qmult_le_compat_r; lra. }
      destruct HY as [[HSM HY] | [HSM HY]]; rewrite HY; lra. }
  unfold nextRateLimitPeriod, RateLimit.next. rewrite Hs, maxRateLimitPeriodF_value.
  cbn [Min is_zero signbit andb ltb F2Q]. fold S.
  destruct (Qcompare_spec S (magnitude 8388608000000000 (-25))) as [Hcmp | Hcmp | Hcmp];
    rewrite HM in Hcmp; fold M in Hcmp.
  - exists maxRateLimitPeriod. split; [apply to_int64_maxF |].
    assert (HY : Qmin M X - (1 # 4) <= M /\ M <= Qmin M X + (1 # 4))
      by (apply Hclose; right; split; [lra | reflexivity]).
    pose proof (floor_close (Qmin M X) M (proj1 HY) (proj2 HY)) as Hfl.
    unfold M in Hfl at 3 4. rewrite Qfloor_Z in Hfl. exact Hfl.
  - exists (Qfloor S). split.
    + apply (to_int64_pos m k maxRateLimitPeriod); [discriminate |].
      fold S M. lra.
    + assert (HY : Qmin M X - (1 # 4) <= S /\ S <= Qmin M X + (1 # 4))
        by (apply Hclose; left; split; [lra | reflexivity]).
      exact (floor_close (Qmin M X) S (proj1 HY) (proj2 HY)).
  - exists maxRateLimitPeriod. split; [apply to_int64_maxF |].
    assert (HY : Qmin M X - (1 # 4) <= M /\ M <= Qmin M X + (1 # 4))
      by (apply Hclose; right; split; [lra | reflexivity]).
    pose proof (floor_close (Qmin M X) M (proj1 HY) (proj2 HY)) as Hfl.
    unfold M in Hfl at 3 4. rewrite Qfloor_Z in Hfl. exact Hfl.
Qed.
End Main.

Section Exact.
Import Float64.
Open Scope Q_scope.

Lemma round_half_even_Z y (n : Z) : y == inject_Z n -> round_half_even y = n.
Proof.
  intros Hy. unfold round_half_even.
  rewrite (Qfloor_comp _ _ Hy), Qfloor_Z.
  assert (H : y - inject_Z n == 0) by (rewrite Hy; ring).
  destruct (Qcompare_spec (y - inject_Z n) (1 # 2)) as [He | Hl | Hg].
  - rewrite H in He. discriminate He.
  - reflexivity.
  - rewrite H in Hg. discriminate Hg.
Qed.

(** A number with at most 53 significant bits, in the range of the normal
    numbers, is rounded to itself. *)
Lemma round_pos_exact s x (n j : Z) :
  (0 < n < 2 ^ prec)%Z -> x == inject_Z n * pow2 j ->
  pow2 (emin + prec - 1) <= x -> x < pow2 (emax - 1) ->
  exists m k, round_pos s x = S754_finite s m k /\ magnitude m k == x.
Proof.
  intros Hn Hx Hlo Hhi.
  assert (Hx0 : 0 < x) by (pose proof (pow2_pos (emin + prec - 1)); lra).
  destruct (exponent_for_bracket x Hx0) as (k & Hk & Hb1 & Hb2).
  pose proof (pow2_pos k) as HK. pose proof (pow2_pos (prec - 1)) as Hc.
  pose proof (pow2_pos j) as HJ.
  pose proof pow2_prec_half as Hp.
  assert (Hkmin : (emin <= k)%Z).
  { destruct (Z_le_gt_dec emin k) as [H | H]; [exact H | exfalso].
    assert (H1 : pow2 k <= pow2 (emin - 1)) by (apply pow2_le; lia).
    assert (H2 : pow2 (emin + prec - 1) == pow2 prec * pow2 (emin - 1)).
    { rewrite <- pow2_add. replace (prec + (emin - 1))%Z with (emin + prec - 1)%Z by lia.
      reflexivity. }
    pose proof (pow2_pos prec) as Hpp.
    assert (H3 : pow2 prec * pow2 k <= pow2 prec * pow2 (emin - 1)).
    { rewrite !(Qmult_comm (pow2 prec)). apply Qmult_le_compat_r; lra. }
    lra. }
  assert (Hkmax : (k + 1 <= emax - prec)%Z).
  { assert (H : pow2 (prec - 1 + k) < pow2 (emax - 1)) by (rewrite pow2_add; lra).
    apply pow2_lt_inv in H. unfold prec, emax in H |- *. lia. }
  (* the exponent of the argument is not below the chosen one *)
  assert (Hn1 : inject_Z n < pow2 prec).
  { rewrite <- pow2_Z by (unfold prec; lia). rewrite <- Zlt_Qlt. apply Hn. }
  assert (Hn0 : 0 < inject_Z n).
  { change 0 with (inject_Z 0). rewrite <- Zlt_Qlt. apply Hn. }
  assert (Hjk : (k <= j)%Z).
  { destruct (Z_le_gt_dec k j) as [H | H]; [exact H | exfalso].
    assert (H1 : pow2 j <= pow2 (k - 1)) by (apply pow2_le; lia).
    assert (H2 : pow2 k == 2 * pow2 (k - 1)).
    { rewrite <- pow2_succ. replace (k - 1 + 1)%Z with k by lia. reflexivity. }
    pose proof (pow2_pos (k - 1)) as HK1.
    assert (H3 : inject_Z n * pow2 j <= inject_Z n * pow2 (k - 1)).
    { rewrite !(Qmult_comm (inject_Z n)). apply Qmult_le_compat_r; lra. }
    assert (H4 : inject_Z n * pow2 (k - 1) < pow2 prec * pow2 (k - 1)).
    { apply Qmult_lt_compat_r; lra. }
    rewrite Hx in Hb1. rewrite Hp, H2 in *. 
    assert (H5 : pow2 (prec - 1) * (2 * pow2 (k - 1)) == 2 * pow2 (prec - 1) * pow2 (k - 1))
      by ring.
    lra. }
  set (N := (n * 2 ^ (j - k))%Z).
  assert (HN : x / pow2 k == inject_Z N).
  { unfold N. rewrite inject_Z_mult, pow2_Z by lia.
    assert (H : pow2 j == pow2 (j - k) * pow2 k).
    { rewrite <- pow2_add. replace (j - k + k)%Z with j by lia. reflexivity. }
    rewrite Hx, H. field. lra. }
  assert (Hy : inject_Z N * pow2 k == x) by (rewrite <- HN; field; lra).
  assert (HN1 : (2 ^ (prec - 1) <= N)%Z).
  { rewrite Zle_Qle, pow2_Z by (unfold prec; lia).
    apply (Qmult_le_cancel (pow2 k)); [exact HK |]. rewrite Hy. exact Hb1. }
  assert (HN2 : (N < 2 ^ prec)%Z).
  { rewrite Zlt_Qlt, pow2_Z by (unfold prec; lia).
    apply (Qmult_lt_cancel (pow2 k)); [exact HK |]. rewrite Hy. exact Hb2. }
  unfold round_pos. rewrite Hk. rewrite Z.max_l by lia.
  rewrite (round_half_even_Z _ N HN).
  destruct (Z.eqb_spec N (2 ^ prec)) as [Heq | Hne]; [lia |].
  destruct N as [| q | q] eqn:HNq; try (unfold prec in HN1; simpl in HN1; lia).
  assert (Hle : (k <=? emax - prec)%Z = true) by (apply Z.leb_le; lia).
  rewrite Hle. exists q, k. split; [reflexivity | exact Hy].
Qed.

Lemma normal_range_int x (n : Z) (j : Z) :
  (0 < n < 2 ^ prec)%Z -> (-2 <= j <= 2)%Z -> x == inject_Z n * pow2 j ->
  pow2 (emin + prec - 1) <= x /\ x < pow2 (emax - 1).
Proof.
  intros Hn Hj Hx.
  assert (Hn0 : 1 <= inject_Z n).
  { change 1 with (inject_Z 1). rewrite <- Zle_Qle. lia. }
  assert (Hn1 : inject_Z n <= pow2 prec).
  { rewrite <- pow2_Z by (unfold prec; lia). rewrite <- Zle_Qle. lia. }
  pose proof (pow2_pos j) as HJ. pose proof (pow2_pos prec) as HP.
  assert (Hj1 : pow2 (-2) <= pow2 j) by (apply pow2_le; lia).
  assert (Hj2 : pow2 j <= pow2 2) by (apply pow2_le; lia).
  split.
  - apply Qle_trans with (pow2 (-2)); [apply pow2_le; unfold emin, emax, prec; lia |].
    rewrite Hx. apply Qle_trans with (1 * pow2 j); [lra |].
    apply Qmult_le_compat_r; lra.
  - apply Qle_lt_trans with (pow2 prec * pow2 2).
    + rewrite Hx. apply Qmult_le_mono; lra.
    + rewrite <- pow2_add. apply Qpower_lt_compat_l; [unfold emax, prec; lia | reflexivity].
Qed.

(** Integers below [2^53] convert to float64 without error. *)
Lemma of_int_exact z :
  (0 < z < 2 ^ prec)%Z ->
  exists m k, of_int z = S754_finite false m k /\ magnitude m k == inject_Z z.
Proof.
  intros Hz. destruct z as [| p | p]; try lia.
  assert (Hx : inject_Z (Zpos p) == inject_Z (Zpos p) * pow2 0)
    by (unfold pow2; simpl Qpower; ring).
  destruct (normal_range_int _ (Zpos p) 0 Hz ltac:(lia) Hx) as [H1 H2].
  exact (round_pos_exact false _ (Zpos p) 0 Hz Hx H1 H2).
Qed.

(** Multiplying an integer below [2^53] by 1/2, 1 or 2 is exact. *)
Lemma mul_pow2_exact mc kc mp kp (z j : Z) :
  (0 < z < 2 ^ prec)%Z -> (-2 <= j <= 2)%Z ->
  magnitude mc kc == pow2 j -> magnitude mp kp == inject_Z z ->
  exists m k, mul (S754_finite false mc kc) (S754_finite false mp kp)
              = S754_finite false m k /\
              magnitude m k == inject_Z z * pow2 j.
Proof.
  intros Hz Hj Hc Hp. cbn [mul xorb].
  assert (Hx : magnitude mc kc * magnitude mp kp == inject_Z z * pow2 j)
    by (rewrite Hc, Hp; ring).
  destruct (normal_range_int _ z j Hz Hj Hx) as [H1 H2].
  destruct (round_pos_exact false _ z j Hz Hx H1 H2) as (m & k & Hr & Hm).
  exists m, k. split; [exact Hr | rewrite Hm; exact Hx].
Qed.

Lemma unit_roundoff_tiny : unit_roundoff <= 1 # 1125899906842624.
Proof.
  assert (H : pow2 (- prec) <= pow2 (- 50)) by (apply pow2_le; unfold prec; lia).
  exact H.
Qed.
End Exact.

Section Clamp.
Import Float64.
Open Scope Q_scope.

(** [math.Min] with the maximum, then the conversion, on a positive
    finite float of value [v]: the integer part of [v], capped. *)
Lemma clamp_value m k v :
  magnitude m k == v ->
  to_int64 (Min (S754_finite false m k) maxF)
  = Some (Z.min (Qfloor v) maxRateLimitPeriod).
Proof.
  intros Hv. pose proof maxRateLimitPeriodF_exact as HM.
  cbn [Min is_zero signbit andb ltb F2Q].
  destruct (Qcompare_spec (magnitude m k) (magnitude 8388608000000000 (-25)))
    as [Hc | Hc | Hc]; rewrite HM, Hv in Hc.
  - rewrite to_int64_maxF. f_equal.
    rewrite (Qfloor_comp _ _ Hc), Qfloor_Z. symmetry. apply Z.min_id.
  - rewrite (to_int64_pos m k maxRateLimitPeriod); [| discriminate | rewrite Hv; lra].
    f_equal. rewrite (Qfloor_comp _ _ Hv). symmetry. apply Z.min_l.
    rewrite <- (Qfloor_Z maxRateLimitPeriod). apply Qfloor_resp_le. lra.
  - rewrite to_int64_maxF. f_equal. symmetry. apply Z.min_r.
    rewrite <- (Qfloor_Z maxRateLimitPeriod) at 1. apply Qfloor_resp_le. lra.
Qed.

Lemma next_for_power_of_two_ratio p e mc kc (j : Z) :
  (0 < p <= maxRateLimitPeriod)%Z -> (-2 <= j <= 2)%Z ->
  div (RateLimit.targetWalkTimeF targetWalkTime) (of_int e) = S754_finite false mc kc ->
  magnitude mc kc == pow2 j ->
  nextRateLimitPeriod p e
  = Some (Z.min (Qfloor (inject_Z p * pow2 j)) maxRateLimitPeriod).
Proof.
  intros Hp Hj Hd Hc.
  assert (Hp53 : (0 < p < 2 ^ prec)%Z).
  { split; [apply Hp |]. apply Z.le_lt_trans with maxRateLimitPeriod; [apply Hp | reflexivity]. }
  destruct (of_int_exact p Hp53) as (mp & kp & Hfp & Hmp).
  destruct (mul_pow2_exact mc kc mp kp p j Hp53 Hj Hc Hmp) as (m & k & Hmul & Hm).
  unfold nextRateLimitPeriod, RateLimit.next, RateLimit.scaledRateLimitPeriod.
  rewrite Hd, Hfp, Hmul, maxRateLimitPeriodF_value.
  apply clamp_value. exact Hm.
Qed.
End Clamp.

(** X10.  Pass times in a power-of-two ratio to the target act exactly, for
    every period the loop can hold: a pass of exactly the target time
    leaves the period as it is, a pass of twice the target halves it
    (rounding down, with no floor: a period of 1 ns becomes 0), and a pass
    of half the target doubles it, capped at the maximum. *)
Theorem power_of_two_passes_scale_exactly p :
  0 < p <= maxRateLimitPeriod ->
  nextRateLimitPeriod p targetWalkTime = Some p /\
  nextRateLimitPeriod p (2 * targetWalkTime) = Some (p / 2) /\
  nextRateLimitPeriod p (targetWalkTime / 2) = Some (Z.min (2 * p) maxRateLimitPeriod).
Proof.
  intros Hp. split; [| split].
  - rewrite (next_for_power_of_two_ratio p targetWalkTime 4503599627370496 (-52) 0 Hp);
      [| lia | vm_compute; reflexivity | vm_compute; reflexivity].
    f_equal.
    assert (H : (inject_Z p * Float64.pow2 0 == inject_Z p)%Q)
      by (unfold Float64.pow2; simpl Qpower; ring).
    rewrite (Qfloor_comp _ _ H), Qfloor_Z. apply Z.min_l. apply Hp.
  - rewrite (next_for_power_of_two_ratio p (2 * targetWalkTime) 4503599627370496 (-53) (-1) Hp);
      [| lia | vm_compute; reflexivity | vm_compute; reflexivity].
    f_equal.
    assert (H : (inject_Z p * Float64.pow2 (-1) == inject_Z p / inject_Z 2)%Q)
      by (unfold Float64.pow2; simpl Qpower; field).
    rewrite (Qfloor_comp _ _ H), <- Zdiv_Qdiv. apply Z.min_l.
    apply Z.le_trans with p; [| apply Hp].
    apply Z.div_le_upper_bound; lia.
  - rewrite (next_for_power_of_two_ratio p (targetWalkTime / 2) 4503599627370496 (-51) 1 Hp);
      [| lia | vm_compute; reflexivity | vm_compute; reflexivity].
    f_equal.
    assert (H : (inject_Z p * Float64.pow2 1 == inject_Z (2 * p))%Q)
      by (rewrite inject_Z_mult; unfold Float64.pow2; simpl Qpower; ring).
    rewrite (Qfloor_comp _ _ H), Qfloor_Z. reflexivity.
Qed.

Lemma power_of_two_passes_scale_exactly_witness :
  nextRateLimitPeriod 1 targetWalkTime = Some 1 /\
  nextRateLimitPeriod 1 (2 * targetWalkTime) = Some (1 / 2) /\
  nextRateLimitPeriod 1 (targetWalkTime / 2) = Some (Z.min (2 * 1) maxRateLimitPeriod).
Proof.
  apply (power_of_two_passes_scale_exactly 1). vm_compute. split; congruence.
Defined.

Section Warning.
Import Float64.
Open Scope Q_scope.

Lemma one_and_a_half_value : F2Q RateLimit.one_and_a_half == 3 # 2.
Proof. vm_compute. reflexivity. Qed.

Lemma gtb_one_and_a_half m k :
  gtb (S754_finite false m k) RateLimit.one_and_a_half = true <-> 3 # 2 < magnitude m k.
Proof.
  unfold gtb, RateLimit.one_and_a_half.
  change (ltb (S754_finite false 6755399441055744 (-52)) (S754_finite false m k))
    with (match Qcompare (F2Q RateLimit.one_and_a_half) (magnitude m k) with
          | Lt => true | _ => false end).
  destruct (Qcompare_spec (F2Q RateLimit.one_and_a_half) (magnitude m k)) as [Hc | Hc | Hc];
    rewrite one_and_a_half_value in Hc.
  - split; [discriminate | intros H; rewrite <- Hc in H; exfalso; lra].
  - split; [intros _; exact Hc | reflexivity].
  - split; [discriminate | intros H; exfalso; lra].
Qed.

Lemma gtb_negative m k :
  gtb (S754_finite true m k) RateLimit.one_and_a_half = false.
Proof.
  unfold gtb, RateLimit.one_and_a_half. cbn [ltb F2Q].
  pose proof (magnitude_pos m k) as Hpos.
  pose proof (magnitude_pos 6755399441055744 (-52)) as Hpos'.
  destruct (Qcompare_spec (magnitude 6755399441055744 (-52)) (- magnitude m k))
    as [Hc | Hc | Hc]; [reflexivity | exfalso; lra | reflexivity].
Qed.

(** The ratio of line 102 has the sign of the pass time and is within two
    roundings of [|e| / targetWalkTime]. *)
Lemma walk_ratio_close sg q :
  (Z.pos q <= 2 ^ 63)%Z ->
  exists m k,
    div (round_pos sg (inject_Z (Z.pos q))) (RateLimit.targetWalkTimeF targetWalkTime)
    = S754_finite sg m k /\
    (1 - unit_roundoff) * ((1 - unit_roundoff) * inject_Z (Z.pos q))
    <= magnitude m k * inject_Z targetWalkTime /\
    magnitude m k * inject_Z targetWalkTime
    <= (1 + unit_roundoff) * ((1 + unit_roundoff) * inject_Z (Z.pos q)).
Proof.
  intros He.
  assert (He1 : 1 <= inject_Z (Z.pos q))
    by (change 1 with (inject_Z 1); rewrite <- Zle_Qle; lia).
  assert (He2 : inject_Z (Z.pos q) <= inject_Z (2 ^ 63))
    by (rewrite <- Zle_Qle; exact He).
  destruct (round_pos_normal sg (inject_Z (Z.pos q))) as (me & ke & Hfe & HE1 & HE2).
  { apply normal_range.
    - apply Qle_trans with 1; [discriminate | exact He1].
    - apply Qle_trans with (inject_Z (2 ^ 63)); [exact He2 |]. rewrite <- Zle_Qle. lia. }
  { apply normal_range.
    - apply Qle_trans with 1; [discriminate | exact He1].
    - apply Qle_trans with (inject_Z (2 ^ 63)); [exact He2 |]. rewrite <- Zle_Qle. lia. }
  destruct u_bounds as [Hu0 Hu1].
  rewrite targetWalkTimeF_value, Hfe.
  pose proof targetWalkTimeF_exact as HT.
  assert (HTv : inject_Z targetWalkTime == 10000000000) by reflexivity.
  set (E := magnitude me ke) in *. set (e' := inject_Z (Z.pos q)) in *.
  set (T := inject_Z targetWalkTime) in *.
  change (inject_Z (2 ^ 63)) with 9223372036854775808 in *.
  assert (HEl : 15 # 16 <= E).
  { apply Qle_trans with ((1 - unit_roundoff) * e'); [| exact HE1].
    apply Qle_trans with ((15 # 16) * 1); [lra |]. apply Qmult_le_mono; lra. }
  assert (HEh : E <= (17 # 16) * 9223372036854775808).
  { apply Qle_trans with ((1 + unit_roundoff) * e'); [exact HE2 |].
    apply Qmult_le_mono; lra. }
  set (x1 := E / magnitude 5242880000000000 (-19)).
  assert (Hx1 : x1 * T == E) by (unfold x1; rewrite HT; field; lra).
  assert (Hx1lo : 1 # 1099511627776 <= x1).
  { apply (Qmult_le_cancel T); [lra |]. rewrite Hx1. lra. }
  assert (Hx1hi : x1 <= 1267650600228229401496703205376).
  { apply (Qmult_le_cancel T); [lra |]. rewrite Hx1. lra. }
  destruct (round_pos_normal sg x1) as (md & kd & Hfd & HD1 & HD2).
  { apply normal_range;
      [| change (inject_Z (2 ^ 100)) with (1267650600228229401496703205376)]; lra. }
  { apply normal_range;
      [| change (inject_Z (2 ^ 100)) with (1267650600228229401496703205376)]; lra. }
  replace (div (S754_finite sg me ke) (S754_finite false 5242880000000000 (-19)))
    with (round_pos sg x1) by (destruct sg; reflexivity).
  rewrite Hfd. exists md, kd. split; [reflexivity |].
  set (D := magnitude md kd) in *.
  assert (HDT1 : (1 - unit_roundoff) * E <= D * T).
  { rewrite <- Hx1. rewrite Qmult_assoc. apply Qmult_le_compat_r; lra. }
  assert (HDT2 : D * T <= (1 + unit_roundoff) * E).
  { rewrite <- Hx1. rewrite Qmult_assoc. apply Qmult_le_compat_r; lra. }
  split.
  - apply Qle_trans with ((1 - unit_roundoff) * E); [| exact HDT1].
    rewrite !(Qmult_comm (1 - unit_roundoff)). apply Qmult_le_compat_r; lra.
  - apply Qle_trans with ((1 + unit_roundoff) * E); [exact HDT2 |].
    rewrite !(Qmult_comm (1 + unit_roundoff)). apply Qmult_le_compat_r; lra.
Qed.

(** The test of line 102, in integers. *)
Lemma warns_threshold e :
  (min_int64 <= e <= max_int64)%Z ->
  (warnsSlowPass e = true <-> (3 * targetWalkTime < 2 * e)%Z).
Proof.
  intros He. destruct e as [| q | q].
  - split; [intros H; vm_compute in H; discriminate H | intros H; vm_compute in H; discriminate H].
  - destruct (walk_ratio_close false q) as (m & k & Hd & Hlo & Hhi);
      [unfold max_int64 in He; lia |].
    unfold warnsSlowPass, RateLimit.warns.
    change (of_int (Z.pos q)) with (round_pos false (inject_Z (Z.pos q))).
    rewrite Hd, gtb_one_and_a_half.
    destruct u_bounds as [Hu0 _]. pose proof unit_roundoff_tiny as Hu1.
    assert (HTv : inject_Z targetWalkTime == 10000000000) by reflexivity.
    assert (He0 : 0 < inject_Z (Z.pos q)) by reflexivity.
    rewrite HTv in Hlo, Hhi.
    set (D := magnitude m k) in *. set (e := Z.pos q) in *.
    destruct (Z.lt_trichotomy (2 * e) (3 * targetWalkTime)) as [Hlt | [Heq | Hgt]].
    + (* below the threshold *)
      split; [| lia]. intros Hc. exfalso.
      assert (He1 : inject_Z e <= 15000000000 - 1).
      { change (15000000000 - 1) with (inject_Z 14999999999). rewrite <- Zle_Qle.
        unfold targetWalkTime, Second, Millisecond in Hlt. lia. }
      set (e' := inject_Z e) in *.
      set (c := 1 # 1125899906842624) in *.
      assert (H1 : (1 + unit_roundoff) * ((1 + unit_roundoff) * e')
                   <= (1 + c) * ((1 + c) * e')).
      { apply Qmult_le_mono; try lra;
          first [apply Qmult_le_0_compat; lra | apply Qmult_le_compat_r; lra]. }
      unfold c in *. clear c. lra.
    + (* on the threshold *)
      assert (He15 : e = 15000000000%Z)
        by (unfold targetWalkTime, Second, Millisecond in Heq; lia).
      unfold e in He15. injection He15 as ->.
      split; [| intros H; vm_compute in H; discriminate H]. intros Hc. exfalso.
      vm_compute in Hd. injection Hd as <- <-. revert Hc. vm_compute. discriminate.
    + (* above the threshold *)
      split; [intros _; exact Hgt | intros _].
      assert (He1 : 15000000000 + 1 <= inject_Z e).
      { change (15000000000 + 1) with (inject_Z 15000000001). rewrite <- Zle_Qle.
        unfold targetWalkTime, Second, Millisecond in Hgt. lia. }
      set (e' := inject_Z e) in *.
      set (c := 1 # 1125899906842624) in *.
      assert (H1 : (1 - c) * ((1 - c) * e')
                   <= (1 - unit_roundoff) * ((1 - unit_roundoff) * e')).
      { assert (Hc1 : 0 <= 1 - c) by (unfold c; lra).
        apply Qmult_le_mono; try lra;
          first [apply Qmult_le_0_compat; lra | apply Qmult_le_compat_r; lra]. }
      unfold c in *. clear c. lra.
  - destruct (walk_ratio_close true q) as (m & k & Hd & _ & _);
      [unfold min_int64 in He; lia |].
    unfold warnsSlowPass, RateLimit.warns.
    change (of_int (Z.neg q)) with (round_pos true (inject_Z (Z.pos q))).
    rewrite Hd, gtb_negative.
    split; [discriminate |]. unfold targetWalkTime, Second, Millisecond. lia.
Qed.
End Warning.

(** X11.  The warning of line 103 is logged exactly for the passes that
    took more than one and a half times the target: rounding never moves
    the float64 ratio across the threshold, whatever [int64] pass time is
    measured (a zero or negative one never warns). *)
Theorem warning_iff_pass_over_threshold e :
  Float64.min_int64 <= e <= Float64.max_int64 ->
  (warnsSlowPass e = true <-> 3 * targetWalkTime < 2 * e).
Proof. exact (warns_threshold e). Qed.

Lemma warning_iff_pass_over_threshold_witness :
  warnsSlowPass (15 * Second + 1) = true <-> 3 * targetWalkTime < 2 * (15 * Second + 1).
Proof.
  apply (warning_iff_pass_over_threshold (15 * Second + 1)). vm_compute. split; congruence.
Defined.

Section Negative.
Import Float64.
Open Scope Q_scope.

(** A negative pass time (the wall clock stepped back during the pass,
    [time.Now().Sub] of lines 98, 99): the scaled period is a negative
    finite float, of magnitude within [5 unit_roundoff] of
    [p * targetWalkTime / |e|]. *)
Lemma scaled_negative p e :
  (0 < p <= max_int64)%Z -> (min_int64 <= e < 0)%Z ->
  exists m k,
    RateLimit.scaledRateLimitPeriod targetWalkTime p e = S754_finite true m k /\
    (1 - 5 * unit_roundoff) * (inject_Z p * inject_Z targetWalkTime)
    <= magnitude m k * inject_Z (- e) /\
    magnitude m k * inject_Z (- e)
    <= (1 + 5 * unit_roundoff) * (inject_Z p * inject_Z targetWalkTime).
Proof.
  intros Hp He.
  destruct e as [| q | q]; try lia.
  change (- Z.neg q)%Z with (Z.pos q).
  assert (He1 : 1 <= inject_Z (Z.pos q))
    by (change 1 with (inject_Z 1); rewrite <- Zle_Qle; lia).
  assert (He2 : inject_Z (Z.pos q) <= inject_Z (2 ^ 63))
    by (rewrite <- Zle_Qle; unfold min_int64 in He; lia).
  destruct (round_pos_normal true (inject_Z (Z.pos q))) as (me & ke & Hfe & HE1 & HE2).
  { apply normal_range.
    - apply Qle_trans with 1; [discriminate | exact He1].
    - apply Qle_trans with (inject_Z (2 ^ 63)); [exact He2 |]. rewrite <- Zle_Qle. lia. }
  { apply normal_range.
    - apply Qle_trans with 1; [discriminate | exact He1].
    - apply Qle_trans with (inject_Z (2 ^ 63)); [exact He2 |]. rewrite <- Zle_Qle. lia. }
  destruct (of_int_pos p Hp) as (mp & kp & Hfp & HP1 & HP2).
  destruct u_bounds as [Hu0 Hu1].
  assert (Hp1 : 1 <= inject_Z p) by (change 1 with (inject_Z 1); rewrite <- Zle_Qle; lia).
  assert (Hp2 : inject_Z p <= inject_Z (2 ^ 63))
    by (rewrite <- Zle_Qle; unfold max_int64 in Hp; lia).
  unfold RateLimit.scaledRateLimitPeriod.
  change (of_int (Z.neg q)) with (round_pos true (inject_Z (Z.pos q))).
  rewrite targetWalkTimeF_value, Hfe, Hfp.
  pose proof targetWalkTimeF_exact as HT.
  assert (HTv : inject_Z targetWalkTime == 10000000000) by reflexivity.
  set (E := magnitude me ke) in *. set (P := magnitude mp kp) in *.
  set (e' := inject_Z (Z.pos q)) in *. set (p' := inject_Z p) in *.
  set (T := inject_Z targetWalkTime) in *.
  change (inject_Z (2 ^ 63)) with 9223372036854775808 in *.
  assert (HEl : 15 # 16 <= E).
  { apply Qle_trans with ((1 - unit_roundoff) * e'); [| exact HE1].
    apply Qle_trans with ((15 # 16) * 1); [lra |]. apply Qmult_le_mono; lra. }
  assert (HEh : E <= (17 # 16) * 9223372036854775808).
  { apply Qle_trans with ((1 + unit_roundoff) * e'); [exact HE2 |]. apply Qmult_le_mono; lra. }
  assert (HPl : 15 # 16 <= P).
  { apply Qle_trans with ((1 - unit_roundoff) * p'); [| exact HP1].
    apply Qle_trans with ((15 # 16) * 1); [lra |]. apply Qmult_le_mono; lra. }
  assert (HPh : P <= (17 # 16) * 9223372036854775808).
  { apply Qle_trans with ((1 + unit_roundoff) * p'); [exact HP2 |]. apply Qmult_le_mono; lra. }
  assert (HEpos : 0 < E) by lra.
  set (x1 := magnitude 5242880000000000 (-19) / E).
  assert (Hx1 : x1 * E == T) by (unfold x1; rewrite HT; field; lra).
  assert (Hx1lo : 1 # 2147483648 <= x1).
  { apply (Qmult_le_cancel E); [exact HEpos |]. rewrite Hx1. lra. }
  assert (Hx1hi : x1 <= 34359738368).
  { apply (Qmult_le_cancel E); [exact HEpos |]. rewrite Hx1. lra. }
  destruct (round_pos_normal true x1) as (md & kd & Hfd & HD1 & HD2).
  { apply normal_range; [| change (inject_Z (2 ^ 100)) with (1267650600228229401496703205376)]; lra. }
  { apply normal_range; [| change (inject_Z (2 ^ 100)) with (1267650600228229401496703205376)]; lra. }
  change (div (S754_finite false 5242880000000000 (-19)) (S754_finite true me ke))
    with (round_pos true x1).
  rewrite Hfd.
  set (D := magnitude md kd) in *.
  assert (HDE1 : (1 - unit_roundoff) * T <= D * E).
  { rewrite <- Hx1. rewrite Qmult_assoc. apply Qmult_le_compat_r; lra. }
  assert (HDE2 : D * E <= (1 + unit_roundoff) * T).
  { rewrite <- Hx1. rewrite Qmult_assoc. apply Qmult_le_compat_r; lra. }
  assert (HDlo : 1 # 4294967296 <= D).
  { apply Qle_trans with ((1 - unit_roundoff) * x1); [| exact HD1].
    apply Qle_trans with ((15 # 16) * (1 # 2147483648)); [discriminate |].
    apply Qmult_le_mono; lra. }
  assert (HDhi : D <= 68719476736).
  { apply Qle_trans with ((1 + unit_roundoff) * x1); [exact HD2 |].
    apply Qle_trans with ((17 # 16) * 34359738368); [| discriminate].
    apply Qmult_le_mono; lra. }
  assert (Hx2lo : 1 # 17179869184 <= D * P).
  { apply Qle_trans with ((1 # 4294967296) * (15 # 16)); [discriminate |].
    apply Qmult_le_mono; lra. }
  assert (Hx2hi : D * P <= 1267650600228229401496703205376).
  { apply Qle_trans with (68719476736 * ((17 # 16) * 9223372036854775808)); [| discriminate].
    apply Qmult_le_mono; lra. }
  destruct (round_pos_normal true (D * P)) as (ms & ks & Hfs & HS1 & HS2).
  { apply normal_range; [| change (inject_Z (2 ^ 100)) with (1267650600228229401496703205376)];
      [lra | exact Hx2hi]. }
  { apply normal_range; [| change (inject_Z (2 ^ 100)) with (1267650600228229401496703205376)];
      [lra | exact Hx2hi]. }
  change (mul (S754_finite true md kd) (S754_finite false mp kp))
    with (round_pos true (D * P)).
  rewrite Hfs.
  exists ms, ks. split; [reflexivity |].
  apply (four_roundings unit_roundoff e' E T D p' P); try lra.
Qed.

(** The conversion of a negative finite float whose magnitude fits:
    truncation towards zero. *)
Lemma to_int64_neg m k (B : Z) :
  (B <= max_int64)%Z -> magnitude m k <= inject_Z B ->
  to_int64 (S754_finite true m k) = Some (- Qfloor (magnitude m k))%Z.
Proof.
  intros HB Hm. pose proof (magnitude_pos m k) as Hpos.
  cbn [to_int64 F2Q].
  assert (Hq : (Z.quot (Qnum (- magnitude m k)) (Zpos (Qden (- magnitude m k)))
                = - Qfloor (magnitude m k))%Z).
  { rewrite <- Qfloor_quot by (apply Qlt_le_weak; exact Hpos).
    destruct (magnitude m k) as [a b]. cbn [Qopp Qnum Qden].
    apply Z.quot_opp_l. discriminate. }
  rewrite Hq.
  assert (H0 : (0 <= Qfloor (magnitude m k))%Z).
  { rewrite <- (Qfloor_Z 0). apply Qfloor_resp_le. change (inject_Z 0) with 0. lra. }
  assert (H1 : (Qfloor (magnitude m k) <= B)%Z).
  { rewrite <- (Qfloor_Z B). apply Qfloor_resp_le. exact Hm. }
  replace ((min_int64 <=? - Qfloor (magnitude m k))%Z
           && (- Qfloor (magnitude m k) <=? max_int64)%Z)%bool with true; [reflexivity |].
  symmetry. apply andb_true_intro. unfold min_int64, max_int64 in *. split; apply Z.leb_le; lia.
Qed.

Lemma next_negative_elapsed p e :
  (0 < p <= maxRateLimitPeriod)%Z -> (min_int64 <= e < 0)%Z ->
  exists r, nextRateLimitPeriod p e = Some r /\ (- (2 ^ 62) <= r <= 0)%Z.
Proof.
  intros Hp He.
  assert (Hp' : (0 < p <= max_int64)%Z).
  { split; [apply Hp |]. apply Z.le_trans with maxRateLimitPeriod; [apply Hp | discriminate]. }
  destruct (scaled_negative p e Hp' He) as (m & k & Hs & _ & Hhi).
  pose proof (magnitude_pos m k) as Hpos.
  destruct u_bounds as [Hu0 Hu1].
  assert (Hp2 : inject_Z p <= 250000000).
  { change 250000000 with (inject_Z maxRateLimitPeriod). rewrite <- Zle_Qle. apply Hp. }
  assert (Hp0 : 0 < inject_Z p) by (change 0 with (inject_Z 0); rewrite <- Zlt_Qlt; lia).
  assert (Ha : 1 <= inject_Z (- e))
    by (change 1 with (inject_Z 1); rewrite <- Zle_Qle; lia).
  assert (HTv : inject_Z targetWalkTime == 10000000000) by reflexivity.
  rewrite HTv in Hhi.
  assert (Hm : magnitude m k <= inject_Z (2 ^ 62)).
  { change (inject_Z (2 ^ 62)) with 4611686018427387904.
    apply Qle_trans with (magnitude m k * inject_Z (- e)).
    - rewrite <- (Qmult_1_r (magnitude m k)) at 1.
      rewrite !(Qmult_comm (magnitude m k)). apply Qmult_le_compat_r; lra.
    - apply Qle_trans with ((1 + 5 * unit_roundoff) * (inject_Z p * 10000000000));
        [exact Hhi |].
      apply Qle_trans with ((21 # 16) * (250000000 * 10000000000)); [| discriminate].
      apply Qmult_le_mono; lra. }
  exists (- Qfloor (magnitude m k))%Z. split.
  - unfold nextRateLimitPeriod, RateLimit.next.
    rewrite Hs, maxRateLimitPeriodF_value.
    cbn [Min is_zero signbit andb ltb F2Q].
    pose proof maxRateLimitPeriodF_exact as HM.
    destruct (Qcompare_spec (- magnitude m k) (magnitude 8388608000000000 (-25)))
      as [Hc | Hc | Hc]; rewrite HM in Hc.
    + exfalso. assert (HMv : inject_Z maxRateLimitPeriod == 250000000) by reflexivity. lra.
    + apply (to_int64_neg m k (2 ^ 62)); [discriminate | exact Hm].
    + exfalso. assert (HMv : inject_Z maxRateLimitPeriod == 250000000) by reflexivity. lra.
  - assert (H0 : (0 <= Qfloor (magnitude m k))%Z).
    { rewrite <- (Qfloor_Z 0). apply Qfloor_resp_le. change (inject_Z 0) with 0. lra. }
    assert (H1 : (Qfloor (magnitude m k) <= 2 ^ 62)%Z).
    { rewrite <- (Qfloor_Z (2 ^ 62)). apply Qfloor_resp_le. exact Hm. }
    lia.
Qed.

Lemma next_positive_elapsed p e :
  (0 < p <= max_int64)%Z -> (0 < e <= max_int64)%Z ->
  exists r, nextRateLimitPeriod p e = Some r /\ (0 <= r <= maxRateLimitPeriod)%Z.
Proof.
  intros Hp He.
  destruct (scaled_close p e Hp He) as (m & k & Hs & _ & _).
  pose proof (magnitude_pos m k) as Hpos.
  exists (Z.min (Qfloor (magnitude m k)) maxRateLimitPeriod). split.
  - unfold nextRateLimitPeriod, RateLimit.next.
    rewrite Hs, maxRateLimitPeriodF_value. apply clamp_value. reflexivity.
  - assert (H0 : (0 <= Qfloor (magnitude m k))%Z).
    { rewrite <- (Qfloor_Z 0). apply Qfloor_resp_le. change (inject_Z 0) with 0. lra. }
    unfold maxRateLimitPeriod, Millisecond in *. lia.
Qed.
End Negative.

(** X12.  For every period the loop can hold and every [int64] pass time,
    the float64 arithmetic of lines 111, 112 stays finite and its
    conversion to [time.Duration] is defined.  The new period is never
    above the maximum and has the sign of the pass time: a negative pass
    time (the clock stepped back) gives a period of zero or less. *)
Theorem next_period_defined_for_every_pass_time p e :
  0 < p <= maxRateLimitPeriod ->
  Float64.min_int64 <= e <= Float64.max_int64 ->
  exists r, nextRateLimitPeriod p e = Some r /\
            r <= maxRateLimitPeriod /\
            (e < 0 -> r <= 0) /\ (0 <= e -> 0 <= r).
Proof.
  intros Hp He.
  assert (Hp' : 0 < p <= Float64.max_int64).
  { split; [apply Hp |]. apply Z.le_trans with maxRateLimitPeriod; [apply Hp | discriminate]. }
  destruct (Z.lt_trichotomy e 0) as [Hneg | [-> | Hpos]].
  - destruct (next_negative_elapsed p e Hp) as (r & Hr & Hr1 & Hr2); [lia |].
    exists r. split; [exact Hr |]. unfold maxRateLimitPeriod, Millisecond. lia.
  - exists maxRateLimitPeriod. split; [apply next_zero_elapsed; exact Hp' |].
    unfold maxRateLimitPeriod, Millisecond. lia.
  - destruct (next_positive_elapsed p e Hp') as (r & Hr & Hr1 & Hr2); [lia |].
    exists r. split; [exact Hr |]. lia.
Qed.

Lemma next_period_defined_for_every_pass_time_witness :
  exists r, nextRateLimitPeriod initialRateLimitPeriod (- Second) = Some r /\
            r <= maxRateLimitPeriod /\
            (- Second < 0 -> r <= 0) /\ (0 <= - Second -> 0 <= r).
Proof.
  apply (next_period_defined_for_every_pass_time initialRateLimitPeriod (- Second));
    vm_compute; split; congruence.
Defined.

Section Survival.
Import Float64.
Open Scope Q_scope.

(** A pass of at most half [p * targetWalkTime] nanoseconds leaves a
    period of at least one nanosecond. *)
Lemma next_short_pass p e :
  (0 < p <= max_int64)%Z -> (0 < e <= max_int64)%Z ->
  (2 * e <= p * targetWalkTime)%Z ->
  exists r, nextRateLimitPeriod p e = Some r /\ (1 <= r <= maxRateLimitPeriod)%Z.
Proof.
  intros Hp He Hpe.
  destruct (scaled_close p e Hp He) as (m & k & Hs & Hlo & _).
  destruct u_bounds as [Hu0 Hu1].
  assert (He0 : 0 < inject_Z e) by (change 0 with (inject_Z 0); rewrite <- Zlt_Qlt; lia).
  assert (Hpe' : 2 * inject_Z e <= inject_Z p * inject_Z targetWalkTime).
  { change 2 with (inject_Z 2). rewrite <- !inject_Z_mult, <- Zle_Qle. exact Hpe. }
  assert (Hpt : (11 # 16) * (inject_Z p * inject_Z targetWalkTime)
                <= (1 - 5 * unit_roundoff) * (inject_Z p * inject_Z targetWalkTime)).
  { apply Qmult_le_compat_r; lra. }
  assert (Hm : 1 <= magnitude m k).
  { apply (Qmult_le_cancel (inject_Z e)); [exact He0 |]. lra. }
  exists (Z.min (Qfloor (magnitude m k)) maxRateLimitPeriod). split.
  - unfold nextRateLimitPeriod, RateLimit.next.
    rewrite Hs, maxRateLimitPeriodF_value. apply clamp_value. reflexivity.
  - assert (H1 : (1 <= Qfloor (magnitude m k))%Z).
    { rewrite <- (Qfloor_Z 1). apply Qfloor_resp_le. exact Hm. }
    unfold maxRateLimitPeriod, Millisecond in *. lia.
Qed.

(** A pass of at least twice [p * targetWalkTime] nanoseconds leaves a
    period of zero. *)
Lemma next_long_pass p e :
  (0 < p <= max_int64)%Z -> (0 < e <= max_int64)%Z ->
  (2 * (p * targetWalkTime) <= e)%Z ->
  nextRateLimitPeriod p e = Some 0%Z.
Proof.
  intros Hp He Hpe.
  destruct (scaled_close p e Hp He) as (m & k & Hs & _ & Hhi).
  destruct u_bounds as [Hu0 Hu1].
  pose proof (magnitude_pos m k) as Hpos.
  assert (He0 : 0 < inject_Z e) by (change 0 with (inject_Z 0); rewrite <- Zlt_Qlt; lia).
  assert (Hp0 : 0 < inject_Z p) by (change 0 with (inject_Z 0); rewrite <- Zlt_Qlt; lia).
  assert (HTv : inject_Z targetWalkTime == 10000000000) by reflexivity.
  assert (Hpe' : 2 * (inject_Z p * inject_Z targetWalkTime) <= inject_Z e).
  { change 2 with (inject_Z 2). rewrite <- !inject_Z_mult, <- Zle_Qle. exact Hpe. }
  assert (Hpt0 : 0 < inject_Z p * inject_Z targetWalkTime).
  { apply Qmult_lt_0_compat; lra. }
  assert (Hpt : (1 + 5 * unit_roundoff) * (inject_Z p * inject_Z targetWalkTime)
                <= (21 # 16) * (inject_Z p * inject_Z targetWalkTime)).
  { apply Qmult_le_compat_r; lra. }
  assert (Hm : magnitude m k < 1).
  { apply (Qmult_lt_cancel (inject_Z e)); [exact He0 |]. lra. }
  unfold nextRateLimitPeriod, RateLimit.next.
  rewrite Hs, maxRateLimitPeriodF_value.
  rewrite (clamp_value m k (magnitude m k)) by reflexivity.
  f_equal.
  assert (H0 : (0 <= Qfloor (magnitude m k))%Z).
  { rewrite <- (Qfloor_Z 0). apply Qfloor_resp_le. change (inject_Z 0) with 0. lra. }
  assert (H1 : (Qfloor (magnitude m k) < 1)%Z).
  { apply Z.lt_nge. intros Hge. pose proof (Qfloor_le (magnitude m k)) as Hf.
    assert (Hi : inject_Z 1 <= inject_Z (Qfloor (magnitude m k)))
      by (rewrite <- Zle_Qle; exact Hge).
    change (inject_Z 1) with 1 in Hi. lra. }
  unfold maxRateLimitPeriod, Millisecond. lia.
Qed.
End Survival.

#[local] Opaque nextRateLimitPeriod warnsSlowPass.

Ltac unfold_actions :=
  unfold step, internal, start, stop, getWalkedProcPid, walker_write, walk_returned,
    publish, adapt, reset, sleep, go_loop, goto, Lock, Unlock, NewTicker, ticker_Stop,
    gets, update, set_heap, set_task, log, halt, mbind, mret, Act_bind, Act_ret in *.

Ltac solve_inv :=
  cbn in *; unfold initialRateLimitPeriod, maxRateLimitPeriod, Millisecond in *;
  intuition (try congruence; try lia).

Ltac break_system s :=
  destruct s as [[w0 mt rn ps wb rb rs] hp tk tks lg hl].

Section Steps.
Context {Walker Proc : Type}.
Implicit Types s : @System Walker Proc.
Implicit Types ev : @event Proc.

Lemma load_store_same h p v : load (store h p v) p = v.
Proof. destruct p; reflexivity. Qed.

Lemma load_store_other h p q v : p <> q -> load (store h p v) q = load h q.
Proof. destruct p, q; intros H; try reflexivity; contradiction. Qed.

Lemma initial_inv (w : Walker) : inv (newBackgroundReader (Proc := Proc) w).
Proof. unfold inv. simpl. repeat split; try discriminate. Qed.

Lemma step_inv s ev s' o : inv s -> step ev s = Some (s', o) -> inv s'.
Proof.
  intros Hinv Hstep. break_system s. unfold inv in *. cbn in Hinv.
  destruct Hinv as (Hm & Hbuf & Hps & Ht). subst.
  unfold_actions. change (0 <? initialRateLimitPeriod) with true in Hstep. cbn in Hstep.
  destruct hl as [why |]; [discriminate |].
  destruct tk as [[[] per tck] |];
    destruct ev; cbn in Hstep; try discriminate;
    try (destruct rn; cbn in Hstep; inversion Hstep; subst; clear Hstep; solve_inv; fail);
    try (inversion Hstep; subst; clear Hstep; solve_inv; fail);
    try (destruct err; inversion Hstep; subst; clear Hstep; solve_inv; fail);
    try (destruct ps; cbn in Hstep; inversion Hstep; subst; clear Hstep;
         solve_inv; fail).
  (* adapting *)
  cbn in Ht. destruct Ht as (Hr & Hle & _ & Ht). destruct (Ht eq_refl) as (Hpos & -> & ->).
  destruct (warnsSlowPass walkTime); cbn in Hstep;
    destruct (nextRateLimitPeriod per walkTime) as [p |] eqn:Hnext; cbn in Hstep;
    try (apply next_le_max in Hnext);
    try (destruct (0 <? p) eqn:Hp; [apply Z.ltb_lt in Hp |]);
    cbn in Hstep; inversion Hstep; subst; clear Hstep; solve_inv.
Qed.
End Steps.

Section Traces.
Context {Walker Proc : Type}.
Implicit Types s : @System Walker Proc.
Implicit Types ev : @event Proc.
Implicit Types tr : list (@event Proc).

Lemma run_inv tr : forall s s' outs, inv s -> run tr s = Some (s', outs) -> inv s'.
Proof.
  induction tr as [| ev tr IH]; intros s s' outs Hinv Hrun; cbn in Hrun.
  - injection Hrun as <- _. exact Hinv.
  - destruct (step ev s) as [[s1 o] |] eqn:Hstep; [| discriminate].
    destruct (run tr s1) as [[s2 os] |] eqn:Hrest; [| discriminate].
    injection Hrun as <- _. eapply IH; [| exact Hrest]. eapply step_inv; eassumption.
Qed.

Lemma run_app tr1 : forall tr2 s s1 o1 s2 o2,
  run tr1 s = Some (s1, o1) -> run tr2 s1 = Some (s2, o2) ->
  run (tr1 ++ tr2) s = Some (s2, o1 ++ o2).
Proof.
  induction tr1 as [| ev tr1 IH]; intros tr2 s s1 o1 s2 o2 H1 H2; cbn in H1 |- *.
  - injection H1 as <- <-. exact H2.
  - destruct (step ev s) as [[s' o] |]; [| discriminate].
    destruct (run tr1 s') as [[s'' os] |] eqn:Hrest; [| discriminate].
    injection H1 as <- <-. rewrite (IH _ _ _ _ _ _ Hrest H2). reflexivity.
Qed.

Lemma reachable_inv (w : Walker) tr s outs :
  run tr (newBackgroundReader w) = Some (s, outs) -> inv s.
Proof. apply run_inv, initial_inv. Qed.

(** A step changes what consumers see only by swapping the buffers, and
    then to the walking buffer's bytes with that pass's mapping. *)
Lemma step_snapshot s ev s' o :
  inv s -> step ev s = Some (s', o) ->
  snapshot s' = match publishes ev s with Some snap => snap | None => snapshot s end.
Proof.
  intros Hinv Hstep. break_system s. unfold inv in Hinv. cbn in Hinv.
  destruct Hinv as (Hm & Hbuf & Hps & Ht). subst.
  unfold snapshot, publishes, walking_bytes.
  unfold_actions. change (0 <? initialRateLimitPeriod) with true in Hstep. cbn in Hstep.
  destruct hl as [why |]; [discriminate |].
  destruct tk as [[[] per tck] |];
    destruct ev; cbn in Hstep |- *; try discriminate;
    try (destruct rn; cbn in Hstep; inversion Hstep; subst; clear Hstep; reflexivity);
    try (inversion Hstep; subst; clear Hstep; cbn;
         rewrite ?load_store_other by assumption; reflexivity);
    try (destruct err; inversion Hstep; subst; clear Hstep; reflexivity);
    try (destruct ps; cbn in Hstep; inversion Hstep; subst; clear Hstep;
         reflexivity).
  destruct (warnsSlowPass walkTime); cbn in Hstep;
    destruct (nextRateLimitPeriod per walkTime) as [p |]; cbn in Hstep;
    try (destruct (0 <? p)); cbn in Hstep; inversion Hstep; subst; reflexivity.
Qed.

Lemma last_cons {A} (a d : A) l : List.last (a :: l) d = List.last l a.
Proof.
  revert a d. induction l as [| b l IH]; intros a d; [reflexivity |].
  change (List.last (b :: l) d = List.last (b :: l) a). rewrite !IH. reflexivity.
Qed.

Lemma run_snapshot tr : forall s s' outs,
  inv s -> run tr s = Some (s', outs) ->
  snapshot s' = List.last (publications tr s) (snapshot s).
Proof.
  induction tr as [| ev tr IH]; intros s s' outs Hinv Hrun; cbn in Hrun |- *.
  - injection Hrun as <- _. reflexivity.
  - destruct (step ev s) as [[s1 o] |] eqn:Hstep; [| discriminate].
    destruct (run tr s1) as [[s2 os] |] eqn:Hrest; [| discriminate].
    injection Hrun as <- _.
    pose proof (step_snapshot _ _ _ _ Hinv Hstep) as Hsnap.
    rewrite (IH _ _ _ (step_inv _ _ _ _ Hinv Hstep) Hrest).
    destruct (publishes ev s) as [snap |].
    + rewrite last_cons, Hsnap. reflexivity.
    + rewrite Hsnap. reflexivity.
Qed.

Lemma publications_app tr1 : forall tr2 s s1 o1,
  run tr1 s = Some (s1, o1) ->
  publications (tr1 ++ tr2) s = publications tr1 s ++ publications tr2 s1.
Proof.
  induction tr1 as [| ev tr1 IH]; intros tr2 s s1 o1 Hr; cbn in Hr.
  - injection Hr as <- _. reflexivity.
  - destruct (step ev s) as [[sa oa] |] eqn:Hs; [| discriminate].
    destruct (run tr1 sa) as [[sb ob] |] eqn:Hr'; [| discriminate].
    injection Hr as <- _. cbn [app publications]. rewrite Hs.
    rewrite (IH tr2 _ _ _ Hr'). destruct (publishes ev s); reflexivity.
Qed.

(** [getWalkedProcPid] on a live process whose mutex is free. *)
Lemma step_get s buf :
  mtx (br s) = false -> halted s = None ->
  step (CallGetWalkedProcPid buf) s
  = Some (s, RetSnapshot (buf ++ load (heap s) (readyBuf (br s))) (readySockets (br s))).
Proof.
  intros Hm Hh. break_system s. cbn in Hm, Hh. subst. reflexivity.
Qed.
End Traces.

Section Walking.
Context {Walker Proc : Type}.
Implicit Types s : @System Walker Proc.
Implicit Types ev : @event Proc.
Implicit Types tr : list (@event Proc).

(** While the walker runs, every other event leaves the loop where it
    is, the published snapshot as it is, and only adds to the walking
    buffer. *)
Lemma step_walking s ev s' o l :
  inv s -> task s = Some l -> pc l = Walking -> is_WalkerReturn ev = false ->
  step ev s = Some (s', o) ->
  task s' = Some l /\
  walkingBuf (br s') = walkingBuf (br s) /\
  readyBuf (br s') = readyBuf (br s) /\
  readySockets (br s') = readySockets (br s) /\
  snapshot s' = snapshot s /\
  walking_bytes s' = walking_bytes s ++ written [ev] /\
  halted s' = None /\
  logs s' = logs s /\
  tickers s' = tickers s /\
  publishes ev s = None /\
  (pleaseStop (br s) = true -> pleaseStop (br s') = true).
Proof.
  intros Hinv Htask Hpc Hev Hstep. break_system s. unfold inv in Hinv. cbn in Hinv, Htask.
  destruct Hinv as (Hm & Hbuf & Hps & Ht). subst.
  destruct l as [p per tck]. cbn in Hpc. subst p.
  unfold snapshot, walking_bytes, publishes.
  unfold_actions. change (0 <? initialRateLimitPeriod) with true in Hstep. cbn in Hstep, Ht.
  destruct Ht as (Hr & _). subst.
  destruct hl as [why |]; [discriminate |].
  destruct ev; cbn in Hstep, Hev |- *; try discriminate.
  - inversion Hstep; subst; clear Hstep; cbn. rewrite app_nil_r. repeat split; auto.
  - inversion Hstep; subst; clear Hstep; cbn. rewrite app_nil_r. repeat split; auto.
  - inversion Hstep; subst; clear Hstep; cbn. rewrite app_nil_r. repeat split; auto.
  - inversion Hstep; subst; clear Hstep; cbn.
    rewrite load_store_same, app_nil_r, load_store_other by assumption.
    repeat split; auto.
Qed.

Lemma written_app tr1 tr2 : written (tr1 ++ tr2) = written tr1 ++ written tr2.
Proof.
  induction tr1 as [| ev tr1 IH]; [reflexivity |].
  destruct ev; cbn; rewrite IH; try reflexivity. rewrite app_assoc. reflexivity.
Qed.

Lemma run_walking tr : forall s s' outs l,
  inv s -> task s = Some l -> pc l = Walking -> halted s = None ->
  forallb (fun ev => negb (is_WalkerReturn ev)) tr = true ->
  run tr s = Some (s', outs) ->
  task s' = Some l /\
  walkingBuf (br s') = walkingBuf (br s) /\
  readyBuf (br s') = readyBuf (br s) /\
  readySockets (br s') = readySockets (br s) /\
  snapshot s' = snapshot s /\
  walking_bytes s' = walking_bytes s ++ written tr /\
  halted s' = None /\
  logs s' = logs s /\
  tickers s' = tickers s /\
  publications tr s = [] /\
  (pleaseStop (br s) = true -> pleaseStop (br s') = true).
Proof.
  induction tr as [| ev tr IH]; intros s s' outs l Hinv Htask Hpc Hh Hall Hrun.
  - cbn in Hrun. injection Hrun as <- _. cbn. rewrite app_nil_r. repeat split; auto.
  - cbn in Hrun, Hall. apply andb_prop in Hall as [Hev Hall].
    apply negb_true_iff in Hev.
    destruct (step ev s) as [[s1 o] |] eqn:Hstep; [| discriminate].
    destruct (run tr s1) as [[s2 os] |] eqn:Hrest; [| discriminate].
    injection Hrun as <- _.
    destruct (step_walking _ _ _ _ _ Hinv Htask Hpc Hev Hstep)
      as (H1 & H2 & H3 & H4 & H5 & H6 & H7 & H8 & H9 & H10 & H11).
    destruct (IH _ _ _ _ (step_inv _ _ _ _ Hinv Hstep) H1 Hpc H7 Hall Hrest)
      as (I1 & I2 & I3 & I4 & I5 & I6 & I7 & I8 & I9 & I10 & I11).
    cbn [publications]. rewrite Hstep, H10, I10.
    change (ev :: tr) with ([ev] ++ tr). rewrite written_app.
    repeat split; try congruence; auto.
    rewrite I6, H6, app_assoc. reflexivity.
Qed.

(** The error return of the walker (lines 76-79). *)
Lemma step_walk_failed s l m e :
  task s = Some l -> pc l = Walking -> halted s = None ->
  step (WalkerReturn m (Some e)) s
  = Some (mkSystem (br s) (heap s) (Some l) (tickers s) (Errorf_walking e :: logs s) None,
          Internal).
Proof.
  intros Htask Hpc Hh. break_system s. cbn in Htask, Hh. subst.
  destruct l as [p per tck]. cbn in Hpc. subst p. reflexivity.
Qed.
End Walking.

Section Equations.
Context {Walker Proc : Type}.
Implicit Types s : @System Walker Proc.
Implicit Types ev : @event Proc.
Implicit Types tr : list (@event Proc).
Implicit Types l : @loopState Proc.

Lemma step_halted ev s why : halted s = Some why -> step ev s = None.
Proof. intros H. unfold step. rewrite H. reflexivity. Qed.

Lemma step_not_halted ev s s' o : step ev s = Some (s', o) -> halted s = None.
Proof. unfold step. destruct (halted s); [discriminate | reflexivity]. Qed.

Lemma step_start_running s :
  mtx (br s) = false -> halted s = None -> running (br s) = true ->
  step CallStart s = Some (s, RetError (Some errAlreadyRunning)).
Proof. intros Hm Hh Hr. break_system s. cbn in *. subst. reflexivity. Qed.

Lemma step_start_idle s :
  mtx (br s) = false -> halted s = None -> running (br s) = false ->
  step CallStart s
  = Some (mkSystem (set_running true (br s)) (heap s)
            (Some {| pc := Walking; rateLimitPeriod := initialRateLimitPeriod;
                     ticker := initialRateLimitPeriod |})
            (S (tickers s)) (logs s) None,
          RetError None).
Proof. intros Hm Hh Hr. break_system s. cbn in *. subst. reflexivity. Qed.

Lemma step_stop_idle s :
  mtx (br s) = false -> halted s = None -> running (br s) = false ->
  step CallStop s = Some (s, RetError (Some errNotRunning)).
Proof. intros Hm Hh Hr. break_system s. cbn in *. subst. reflexivity. Qed.

Lemma step_stop_running s :
  mtx (br s) = false -> halted s = None -> running (br s) = true ->
  step CallStop s
  = Some (mkSystem (set_pleaseStop true (br s)) (heap s) (task s) (tickers s) (logs s) None,
          RetError None).
Proof. intros Hm Hh Hr. break_system s. cbn in *. subst. reflexivity. Qed.

Lemma step_write s l chunk :
  task s = Some l -> pc l = Walking -> halted s = None ->
  step (WalkerWrite chunk) s
  = Some (mkSystem (br s) (store (heap s) (walkingBuf (br s)) (walking_bytes s ++ chunk))
            (Some l) (tickers s) (logs s) None,
          Internal).
Proof.
  intros Ht Hpc Hh. break_system s. cbn in *. subst.
  destruct l as [p per tck]. cbn in Hpc. subst p. reflexivity.
Qed.

Lemma step_walk_ok s l m :
  task s = Some l -> pc l = Walking -> halted s = None ->
  step (WalkerReturn m None) s
  = Some (mkSystem (br s) (heap s)
            (Some {| pc := Publishing m; rateLimitPeriod := rateLimitPeriod l;
                     ticker := ticker l |})
            (tickers s) (logs s) None,
          Internal).
Proof.
  intros Ht Hpc Hh. break_system s. cbn in *. subst.
  destruct l as [p per tck]. cbn in Hpc. subst p. reflexivity.
Qed.

(** The critical section when a stop is pending (lines 84-90). *)
Lemma step_publish_stop s l m :
  task s = Some l -> pc l = Publishing m -> halted s = None -> mtx (br s) = false ->
  pleaseStop (br s) = true ->
  step LoopPublish s
  = Some (mkSystem (set_running false (set_pleaseStop false (br s))) (heap s) None
            (Nat.pred (tickers s)) (logs s) None,
          Internal).
Proof.
  intros Ht Hpc Hh Hm Hp. break_system s. cbn in *. subst.
  destruct l as [p per tck]. cbn in Hpc. subst p. reflexivity.
Qed.

(** The critical section otherwise (lines 92-96). *)
Lemma step_publish_swap s l m :
  task s = Some l -> pc l = Publishing m -> halted s = None -> mtx (br s) = false ->
  pleaseStop (br s) = false ->
  step LoopPublish s
  = Some (mkSystem
            (set_readySockets m (set_bufs (readyBuf (br s)) (walkingBuf (br s)) (br s)))
            (heap s)
            (Some {| pc := Adapting; rateLimitPeriod := rateLimitPeriod l;
                     ticker := ticker l |})
            (tickers s) (logs s) None,
          Internal).
Proof.
  intros Ht Hpc Hh Hm Hp. break_system s. cbn in *. subst.
  destruct l as [p per tck]. cbn in Hpc. subst p. reflexivity.
Qed.

(** Adapting, when the new period is a positive duration. *)
Lemma step_adapt_ok s l walkTime p :
  task s = Some l -> pc l = Adapting -> halted s = None ->
  nextRateLimitPeriod (rateLimitPeriod l) walkTime = Some p -> 0 < p ->
  step (LoopAdapt walkTime) s
  = Some (mkSystem (br s) (heap s)
            (Some {| pc := Resetting walkTime; rateLimitPeriod := p; ticker := p |})
            (S (Nat.pred (tickers s)))
            (Debugf_rate p ::
             (if warnsSlowPass walkTime then [Warnf_slow walkTime targetWalkTime] else [])
             ++ Debugf_pass walkTime :: logs s)
            None,
          Internal).
Proof.
  intros Ht Hpc Hh Hn Hp. break_system s. cbn in Ht, Hh. subst.
  destruct l as [q per tck]. cbn in Hpc, Hn. subst q.
  apply Z.ltb_lt in Hp.
  unfold step, internal, adapt. cbn [halted task pc].
  unfold mbind, Act_bind, log. cbn [rateLimitPeriod].
  destruct (warnsSlowPass walkTime); cbn; rewrite Hn; cbn;
    unfold NewTicker; rewrite Hp; reflexivity.
Qed.

(** Adapting, when the new period is not positive: [NewTicker] panics. *)
Lemma step_adapt_panic s l walkTime p :
  task s = Some l -> pc l = Adapting -> halted s = None ->
  nextRateLimitPeriod (rateLimitPeriod l) walkTime = Some p -> p <= 0 ->
  exists s', step (LoopAdapt walkTime) s = Some (s', Internal) /\
             halted s' = Some (PanicNonPositiveInterval p) /\
             task s' = Some {| pc := Adapting; rateLimitPeriod := p; ticker := ticker l |} /\
             br s' = br s /\ heap s' = heap s.
Proof.
  intros Ht Hpc Hh Hn Hp. break_system s. cbn in Ht, Hh. subst.
  destruct l as [q per tck]. cbn in Hpc, Hn. subst q.
  assert (Hp' : (0 <? p) = false) by (apply Z.ltb_ge; exact Hp).
  unfold step, internal, adapt. cbn [halted task pc].
  unfold mbind, Act_bind, log. cbn [rateLimitPeriod].
  destruct (warnsSlowPass walkTime); cbn; rewrite Hn; cbn;
    unfold NewTicker; rewrite Hp'; cbn; eexists; repeat split.
Qed.

Lemma step_reset s l walkTime :
  task s = Some l -> pc l = Resetting walkTime -> halted s = None ->
  step LoopReset s
  = Some (mkSystem (br s) (store (heap s) (walkingBuf (br s)) [])
            (Some {| pc := Sleeping walkTime; rateLimitPeriod := rateLimitPeriod l;
                     ticker := ticker l |})
            (tickers s) (logs s) None,
          Internal).
Proof.
  intros Ht Hpc Hh. break_system s. cbn in *. subst.
  destruct l as [p per tck]. cbn in Hpc. subst p. reflexivity.
Qed.

Lemma step_sleep s l walkTime :
  task s = Some l -> pc l = Sleeping walkTime -> halted s = None ->
  step LoopSleep s
  = Some (mkSystem (br s) (heap s)
            (Some {| pc := Walking; rateLimitPeriod := rateLimitPeriod l;
                     ticker := ticker l |})
            (tickers s) (logs s) None,
          Internal).
Proof.
  intros Ht Hpc Hh. break_system s. cbn in *. subst.
  destruct l as [p per tck]. cbn in Hpc. subst p. reflexivity.
Qed.
End Equations.

Section Passes.
Context {Walker Proc : Type}.
Implicit Types s : @System Walker Proc.
Implicit Types ev : @event Proc.
Implicit Types tr : list (@event Proc).
Implicit Types l : @loopState Proc.

(** The walker's writes always go through, and only the walking buffer
    changes. *)
Lemma run_writes chunks : forall s l,
  task s = Some l -> pc l = Walking -> halted s = None ->
  walkingBuf (br s) <> readyBuf (br s) ->
  exists s1 outs,
    run (map WalkerWrite chunks) s = Some (s1, outs) /\
    br s1 = br s /\ task s1 = Some l /\ halted s1 = None /\
    tickers s1 = tickers s /\ logs s1 = logs s /\
    walking_bytes s1 = walking_bytes s ++ concat chunks /\
    snapshot s1 = snapshot s.
Proof.
  induction chunks as [| c chunks IH]; intros s l Ht Hpc Hh Hne.
  - exists s, []. cbn. rewrite app_nil_r. repeat split; auto.
  - pose proof (step_write s l c Ht Hpc Hh) as Hstep.
    set (s0 := mkSystem (br s) (store (heap s) (walkingBuf (br s)) (walking_bytes s ++ c))
                 (Some l) (tickers s) (logs s) None) in Hstep.
    destruct (IH s0 l eq_refl Hpc eq_refl Hne)
      as (s1 & outs & Hrun & Hbr & Ht1 & Hh1 & Htk & Hlg & Hwb & Hsn).
    exists s1, (Internal :: outs). cbn [map run]. rewrite Hstep, Hrun.
    repeat split; auto.
    + rewrite Hwb. unfold walking_bytes, s0. cbn.
      rewrite load_store_same, <- app_assoc. reflexivity.
    + rewrite Hsn. unfold snapshot, s0. cbn.
      rewrite load_store_other by exact Hne. reflexivity.
Qed.

(** A walk that succeeds, up to and including the critical section: the
    loop returns if a stop is pending, and publishes otherwise. *)
Lemma run_walk_events chunks m s l :
  inv s -> task s = Some l -> pc l = Walking -> halted s = None ->
  exists s' outs,
    run (walk_events chunks m) s = Some (s', outs) /\
    halted s' = None /\
    walking_bytes s' = (if pleaseStop (br s) then walking_bytes s ++ concat chunks
                        else load (heap s) (readyBuf (br s))) /\
    if pleaseStop (br s)
    then task s' = None /\ running (br s') = false /\ pleaseStop (br s') = false /\
         tickers s' = 0%nat /\ snapshot s' = snapshot s
    else task s' = Some {| pc := Adapting; rateLimitPeriod := rateLimitPeriod l;
                           ticker := ticker l |} /\
         running (br s') = true /\
         snapshot s' = (walking_bytes s ++ concat chunks, m).
Proof.
  intros Hinv Ht Hpc Hh.
  pose proof Hinv as (Hm & Hne & Hps & Hti). rewrite Ht in Hti.
  destruct Hti as (Hr & _ & _ & Hlive). destruct (Hlive Hh) as (_ & _ & Htk).
  destruct (run_writes chunks s l Ht Hpc Hh Hne)
    as (s1 & o1 & Hrun1 & Hbr & Ht1 & Hh1 & Htk1 & Hlg1 & Hwb1 & Hsn1).
  pose proof (step_walk_ok s1 l m Ht1 Hpc Hh1) as Hstep2.
  set (s2 := mkSystem (br s1) (heap s1)
               (Some {| pc := Publishing m; rateLimitPeriod := rateLimitPeriod l;
                        ticker := ticker l |}) (tickers s1) (logs s1) None) in Hstep2.
  assert (Hm2 : mtx (br s2) = false) by (cbn; rewrite Hbr; exact Hm).
  unfold walk_events.
  destruct (pleaseStop (br s)) eqn:Hplease.
  - pose proof (step_publish_stop s2 _ m eq_refl eq_refl eq_refl Hm2) as Hstep3.
    unfold s2 in Hstep3 at 1. cbn [br] in Hstep3. rewrite Hbr in Hstep3 at 1.
    specialize (Hstep3 Hplease).
    eexists _, _. split.
    { eapply run_app; [exact Hrun1 |]. cbn [run]. rewrite Hstep2, Hstep3. reflexivity. }
    cbn. rewrite Htk1, Htk. repeat split; auto.
  - pose proof (step_publish_swap s2 _ m eq_refl eq_refl eq_refl Hm2) as Hstep3.
    unfold s2 in Hstep3 at 1. cbn [br] in Hstep3. rewrite Hbr in Hstep3 at 1.
    specialize (Hstep3 Hplease).
    eexists _, _. split.
    { eapply run_app; [exact Hrun1 |]. cbn [run]. rewrite Hstep2, Hstep3. reflexivity. }
    repeat split; auto.
    + unfold walking_bytes. cbn. unfold snapshot in Hsn1. congruence.
    + cbn. rewrite Hbr. exact Hr.
    + unfold snapshot. cbn. unfold walking_bytes in Hwb1. rewrite Hwb1. reflexivity.
Qed.
End Passes.

Section Stopping.
Context {Walker Proc : Type}.
Implicit Types s : @System Walker Proc.
Implicit Types ev : @event Proc.
Implicit Types tr : list (@event Proc).
Implicit Types l : @loopState Proc.

(** With a stop pending, a step either leaves it pending and publishes
    nothing, or it is the loop's return. *)
Lemma stop_pending_step s ev s' o :
  inv s -> pleaseStop (br s) = true -> step ev s = Some (s', o) ->
  (pleaseStop (br s') = true /\ task s' <> None /\ publishes ev s = None /\
   snapshot s' = snapshot s) \/
  (ev = LoopPublish /\ task s' = None /\ running (br s') = false /\
   pleaseStop (br s') = false /\ tickers s' = 0%nat /\ snapshot s' = snapshot s).
Proof.
  intros Hinv Hplease Hstep.
  pose proof (step_inv _ _ _ _ Hinv Hstep) as Hinv'.
  pose proof (step_snapshot _ _ _ _ Hinv Hstep) as Hsnap.
  break_system s. unfold inv in Hinv. cbn in Hinv, Hplease.
  destruct Hinv as (Hm & Hbuf & Hps & Ht). subst.
  specialize (Hps eq_refl). subst.
  unfold publishes in *. cbn in Hsnap |- *.
  destruct tk as [[p per tck] |]; [| destruct Ht; discriminate].
  unfold_actions. cbn in Hstep.
  destruct hl as [why |]; [discriminate |].
  destruct ev; cbn in Hstep; try (destruct p; cbn in Hstep; try discriminate);
    try (inversion Hstep; subst; clear Hstep; left; cbn; repeat split; auto; discriminate).
  - (* the walker returns *)
    destruct err; inversion Hstep; subst; clear Hstep; left; cbn;
      repeat split; auto; discriminate.
  - (* the critical section *)
    inversion Hstep; subst; clear Hstep. right. cbn in *.
    destruct Ht as (_ & _ & _ & Ht). destruct (Ht eq_refl) as (_ & _ & ->).
    repeat split; auto.
  - (* adapting *)
    left. destruct (warnsSlowPass walkTime); cbn in Hstep;
      destruct (nextRateLimitPeriod per walkTime) as [q |]; cbn in Hstep;
      try (destruct (0 <? q)); cbn in Hstep; inversion Hstep; subst; cbn;
      repeat split; auto; discriminate.
Qed.

(** As long as the loop does not return, the reader stays [running]. *)
Lemma running_until_exit tr : forall s s' outs,
  inv s -> running (br s) = true -> run tr s = Some (s', outs) ->
  loop_exits tr s = false -> running (br s') = true.
Proof.
  induction tr as [| ev tr IH]; intros s s' outs Hinv Hr Hrun Hex; cbn in Hrun, Hex.
  - injection Hrun as <- _. exact Hr.
  - destruct (step ev s) as [[s1 o] |] eqn:Hstep; [| discriminate].
    destruct (run tr s1) as [[s2 os] |] eqn:Hrest; [| discriminate].
    injection Hrun as <- _.
    pose proof (step_inv _ _ _ _ Hinv Hstep) as Hinv1.
    assert (Hts : task s <> None).
    { destruct Hinv as (_ & _ & _ & Ht). destruct (task s); [discriminate |].
      destruct Ht as (Hf & _). congruence. }
    destruct (task s) as [l |] eqn:Htask; [| contradiction].
    destruct (task s1) as [l1 |] eqn:Htask1; [| discriminate].
    apply (IH s1 _ os Hinv1); auto.
    destruct Hinv1 as (_ & _ & _ & Ht1). rewrite Htask1 in Ht1. apply Ht1.
Qed.

Lemma run_cons ev tr s s1 o s2 os :
  step ev s = Some (s1, o) -> run tr s1 = Some (s2, os) ->
  run (ev :: tr) s = Some (s2, o :: os).
Proof. intros H1 H2. cbn [run]. rewrite H1, H2. reflexivity. Qed.

(** From wherever the loop stands, its own events take it through one
    successful walk to the critical section; with a stop pending it
    returns there. *)
Lemma run_to_exit s l walkTime chunks m :
  inv s -> task s = Some l -> halted s = None -> pleaseStop (br s) = true ->
  adapt_goes_on l walkTime ->
  exists s' outs,
    run (events_to_publish l walkTime chunks m) s = Some (s', outs) /\
    inv s' /\ halted s' = None /\ task s' = None /\ running (br s') = false /\
    pleaseStop (br s') = false /\ tickers s' = 0%nat /\ snapshot s' = snapshot s.
Proof.
  intros Hinv Ht Hh Hplease Hgo.
  (* from the head of the loop *)
  assert (Hwalk : forall s0 l0, inv s0 -> task s0 = Some l0 -> pc l0 = Walking ->
            halted s0 = None -> pleaseStop (br s0) = true ->
            exists s' outs,
              run (walk_events chunks m) s0 = Some (s', outs) /\
              inv s' /\ halted s' = None /\ task s' = None /\ running (br s') = false /\
              pleaseStop (br s') = false /\ tickers s' = 0%nat /\
              snapshot s' = snapshot s0).
  { intros s0 l0 Hi0 Ht0 Hpc0 Hh0 Hp0.
    destruct (run_walk_events chunks m s0 l0 Hi0 Ht0 Hpc0 Hh0)
      as (s' & outs & Hrun & Hh' & _ & Hrest).
    rewrite Hp0 in Hrest. destruct Hrest as (H1 & H2 & H3 & H4 & H5).
    exists s', outs. repeat split; auto.
    all: try (eapply run_inv; eassumption). }
  assert (Hsleep : forall s0 l0 w0, inv s0 -> task s0 = Some l0 -> pc l0 = Sleeping w0 ->
            halted s0 = None -> pleaseStop (br s0) = true ->
            exists s' outs,
              run (LoopSleep :: walk_events chunks m) s0 = Some (s', outs) /\
              inv s' /\ halted s' = None /\ task s' = None /\ running (br s') = false /\
              pleaseStop (br s') = false /\ tickers s' = 0%nat /\
              snapshot s' = snapshot s0).
  { intros s0 l0 w0 Hi0 Ht0 Hpc0 Hh0 Hp0.
    pose proof (step_sleep s0 l0 w0 Ht0 Hpc0 Hh0) as Hstep.
    destruct (Hwalk _ _ (step_inv _ _ _ _ Hi0 Hstep) eq_refl eq_refl eq_refl Hp0)
      as (s' & outs & Hrun & Hrest).
    exists s', (Internal :: outs).
    split; [exact (run_cons _ _ _ _ _ _ _ Hstep Hrun) | exact Hrest]. }
  assert (Hreset : forall s0 l0 w0, inv s0 -> task s0 = Some l0 -> pc l0 = Resetting w0 ->
            halted s0 = None -> pleaseStop (br s0) = true ->
            exists s' outs,
              run (LoopReset :: LoopSleep :: walk_events chunks m) s0 = Some (s', outs) /\
              inv s' /\ halted s' = None /\ task s' = None /\ running (br s') = false /\
              pleaseStop (br s') = false /\ tickers s' = 0%nat /\
              snapshot s' = snapshot s0).
  { intros s0 l0 w0 Hi0 Ht0 Hpc0 Hh0 Hp0.
    pose proof (step_reset s0 l0 w0 Ht0 Hpc0 Hh0) as Hstep.
    pose proof (step_snapshot _ _ _ _ Hi0 Hstep) as Hsn.
    unfold publishes in Hsn.
    destruct (Hsleep _ _ w0 (step_inv _ _ _ _ Hi0 Hstep) eq_refl eq_refl eq_refl Hp0)
      as (s' & outs & Hrun & H1 & H2 & H3 & H4 & H5 & H6 & H7).
    exists s', (Internal :: outs).
    split; [exact (run_cons _ _ _ _ _ _ _ Hstep Hrun) |].
    refine (conj H1 (conj H2 (conj H3 (conj H4 (conj H5 (conj H6 _)))))).
    rewrite H7, Hsn. reflexivity. }
  unfold events_to_publish. unfold adapt_goes_on in Hgo.
  destruct (pc l) as [| m0 | | w0 | w0] eqn:Hpc.
  - eapply Hwalk; eauto.
  - pose proof Hinv as (Hm & _).
    pose proof (step_publish_stop s l m0 Ht Hpc Hh Hm Hplease) as Hstep.
    pose proof (step_inv _ _ _ _ Hinv Hstep) as Hinv'.
    pose proof (step_snapshot _ _ _ _ Hinv Hstep) as Hsn.
    unfold publishes in Hsn. rewrite Ht, Hplease in Hsn. destruct l; cbn in Hpc; subst.
    eexists _, _. cbn [run]. rewrite Hstep. split; [reflexivity |].
    destruct Hinv' as (? & ? & ? & Ht'). cbn in Ht'.
    repeat split; cbn; auto; try apply Ht'.
  - destruct Hgo as (p & Hn & Hp).
    pose proof (step_adapt_ok s l walkTime p Ht Hpc Hh Hn Hp) as Hstep.
    pose proof (step_snapshot _ _ _ _ Hinv Hstep) as Hsn.
    unfold publishes in Hsn.
    destruct (Hreset _ _ walkTime (step_inv _ _ _ _ Hinv Hstep) eq_refl eq_refl eq_refl Hplease)
      as (s' & outs & Hrun & H1 & H2 & H3 & H4 & H5 & H6 & H7).
    exists s', (Internal :: outs).
    split; [exact (run_cons _ _ _ _ _ _ _ Hstep Hrun) |].
    refine (conj H1 (conj H2 (conj H3 (conj H4 (conj H5 (conj H6 _)))))).
    rewrite H7, Hsn. reflexivity.
  - eapply Hreset; eauto.
  - eapply Hsleep; eauto.
Qed.
End Stopping.

(** The model of binary64 and the hardware agree on the feedback law for
    every sampled pass time and period, with the package's target and
    with the one of the specification's example. *)
Lemma model_agrees_with_hardware :
  forallb (fun e => forallb (fun p =>
    same_float (RateLimit.scaledRateLimitPeriod targetWalkTime p e)
               (hw_scaledRateLimitPeriod targetWalkTime p e)
    && same_float (RateLimit.scaledRateLimitPeriod (10 * Millisecond) p e)
                  (hw_scaledRateLimitPeriod (10 * Millisecond) p e)
    && same_float (Float64.div (Float64.of_int e) (Float64.of_int targetWalkTime))
                  (hw_walkRatio targetWalkTime e))
    sample_periods) sample_walk_times = true.
Proof. vm_compute. reflexivity. Qed.

(** ** The snapshot accessor *)

Lemma get_returns_latest_publication {Walker Proc : Type}
    (w : Walker) (tr : list (@event Proc)) s outs buf :
  run tr (newBackgroundReader w) = Some (s, outs) -> halted s = None ->
  step (CallGetWalkedProcPid buf) s
  = Some (s, RetSnapshot
               (buf ++ fst (List.last (publications tr (newBackgroundReader w)) ([], None)))
               (snd (List.last (publications tr (newBackgroundReader w)) ([], None)))).
Proof.
  intros Hrun Hh.
  pose proof (run_snapshot tr _ _ _ (initial_inv w) Hrun) as Hsnap.
  change (snapshot (newBackgroundReader w)) with (@nil Byte.byte, @None (gmap N Proc)) in Hsnap.
  rewrite <- Hsnap. apply step_get; [| exact Hh].
  apply (reachable_inv w tr s outs Hrun).
Qed.

(** C10.  On a live process, [getWalkedProcPid] hands back the caller's
    bytes followed by the ready buffer's bytes, together with the published
    mapping, and leaves the whole state of the reader as it was. *)
Theorem getWalkedProcPid_appends_and_preserves {Walker Proc : Type}
    (w : Walker) (tr : list (@event Proc)) s outs buf :
  run tr (newBackgroundReader w) = Some (s, outs) -> halted s = None ->
  step (CallGetWalkedProcPid buf) s
  = Some (s, RetSnapshot (buf ++ load (heap s) (readyBuf (br s))) (readySockets (br s))).
Proof.
  intros Hrun Hh. apply step_get; [| exact Hh].
  apply (reachable_inv w tr s outs Hrun).
Qed.

Lemma getWalkedProcPid_appends_and_preserves_witness :
  step (CallGetWalkedProcPid bytes_B) (demo_state trace_one_pass)
  = Some (demo_state trace_one_pass,
          RetSnapshot
            (bytes_B ++ load (heap (demo_state trace_one_pass))
                          (readyBuf (br (demo_state trace_one_pass))))
            (readySockets (br (demo_state trace_one_pass)))).
Proof.
  apply (getWalkedProcPid_appends_and_preserves tt trace_one_pass
           (demo_state trace_one_pass) (demo_outputs trace_one_pass) bytes_B);
    vm_compute; reflexivity.
Defined.




(** C9.  As long as no pass has published, [getWalkedProcPid] adds no byte
    to the caller's buffer and returns the nil mapping. *)
Theorem unpublished_reader_returns_nothing {Walker Proc : Type}
    (w : Walker) (tr : list (@event Proc)) s outs buf :
  run tr (newBackgroundReader w) = Some (s, outs) -> halted s = None ->
  publications tr (newBackgroundReader w) = [] ->
  step (CallGetWalkedProcPid buf) s = Some (s, RetSnapshot buf None).
Proof.
  intros Hrun Hh Hpub.
  rewrite (get_returns_latest_publication w tr s outs buf Hrun Hh), Hpub.
  cbn. rewrite app_nil_r. reflexivity.
Qed.

Lemma unpublished_reader_returns_nothing_witness :
  step (CallGetWalkedProcPid bytes_B) (demo_state trace_walking)
  = Some (demo_state trace_walking, RetSnapshot bytes_B None).
Proof.
  apply (unpublished_reader_returns_nothing tt trace_walking
           (demo_state trace_walking) (demo_outputs trace_walking) bytes_B);
    vm_compute; reflexivity.
Defined.

(** ** The feedback law *)

(** C2, amended.  For a positive period and a positive pass time, both
    [int64], the loop's next period is a whole number of nanoseconds that
    never exceeds the maximum and differs by at most one from the integer
    part of [min(maxPeriod, p * target / e)]; 50 ms after a 20 s pass give
    25 ms and a warning, and with the example's settings in milliseconds
    (target 10, maximum 25, period 5, pass 20) the next period is 2.5 ms,
    again with a warning. *)
Theorem next_period_within_one_nanosecond p e :
  0 < p <= Float64.max_int64 -> 0 < e <= Float64.max_int64 ->
  (exists r, nextRateLimitPeriod p e = Some r /\
             r <= maxRateLimitPeriod /\
             Qfloor (spec_next_period targetWalkTime maxRateLimitPeriod p e) - 1 <= r
             <= Qfloor (spec_next_period targetWalkTime maxRateLimitPeriod p e) + 1) /\
  (nextRateLimitPeriod (50 * Millisecond) (20 * Second) = Some (25 * Millisecond) /\
   warnsSlowPass (20 * Second) = true /\
   logs (demo_state trace_slow_pass)
   = [Debugf_rate (25 * Millisecond); Warnf_slow (20 * Second) targetWalkTime;
      Debugf_pass (20 * Second)]) /\
  (RateLimit.next (10 * Millisecond) (25 * Millisecond) (5 * Millisecond) (20 * Millisecond)
   = Some 2500000 /\
   RateLimit.warns (10 * Millisecond) (20 * Millisecond) = true).
Proof.
  intros Hp He. split; [| split].
  - destruct (next_within_one p e Hp He) as (r & Hr & Hclose).
    exists r. split; [exact Hr |]. split; [| exact Hclose].
    exact (next_le_max p e r Hr).
  - split; [vm_compute; reflexivity |]. split; vm_compute; reflexivity.
  - split; vm_compute; reflexivity.
Qed.

Lemma next_period_within_one_nanosecond_witness :
  exists r, nextRateLimitPeriod (50 * Millisecond) (3 * Second) = Some r /\
            r <= maxRateLimitPeriod /\
            Qfloor (spec_next_period targetWalkTime maxRateLimitPeriod
                      (50 * Millisecond) (3 * Second)) - 1 <= r
            <= Qfloor (spec_next_period targetWalkTime maxRateLimitPeriod
                         (50 * Millisecond) (3 * Second)) + 1.
Proof.
  apply (next_period_within_one_nanosecond (50 * Millisecond) (3 * Second));
    vm_compute; split; congruence.
Defined.

(** C2 as worded fails: after a 3 s pass the next period is 166666666 ns,
    not 500000000/3 ns. *)
Lemma next_period_is_truncated :
  nextRateLimitPeriod (50 * Millisecond) (3 * Second) = Some 166666666 /\
  ~ (inject_Z 166666666
     == spec_next_period targetWalkTime maxRateLimitPeriod (50 * Millisecond) (3 * Second))%Q.
Proof.
  split; [vm_compute; reflexivity |].
  intros H. vm_compute in H. discriminate H.
Qed.

(** C3, amended.  Whenever the loop is alive its period is at most
    [maxRateLimitPeriod], and positive as long as the process has not
    stopped on the panic of [NewTicker]; there is no lower bound at
    [initialRateLimitPeriod]. *)
Theorem rate_limit_period_bounds {Walker Proc : Type}
    (w : Walker) (tr : list (@event Proc)) s outs l :
  run tr (newBackgroundReader w) = Some (s, outs) -> task s = Some l ->
  rateLimitPeriod l <= maxRateLimitPeriod /\ (halted s = None -> 0 < rateLimitPeriod l).
Proof.
  intros Hrun Ht.
  destruct (reachable_inv w tr s outs Hrun) as (_ & _ & _ & Hi). rewrite Ht in Hi.
  destruct Hi as (_ & Hle & _ & Hpos). split; [exact Hle |].
  intros Hh. apply (Hpos Hh).
Qed.

Lemma rate_limit_period_bounds_witness :
  25 * Millisecond <= maxRateLimitPeriod /\
  (halted (demo_state trace_slow_pass) = None -> 0 < 25 * Millisecond).
Proof.
  apply (rate_limit_period_bounds tt trace_slow_pass (demo_state trace_slow_pass)
           (demo_outputs trace_slow_pass)
           {| pc := Resetting (20 * Second); rateLimitPeriod := 25 * Millisecond;
              ticker := 25 * Millisecond |});
    vm_compute; reflexivity.
Defined.

(** C3 as worded fails: one pass of 20 s halves the period to 25 ms, below
    the initial 50 ms. *)
Lemma period_falls_below_initial :
  run trace_slow_pass demo_reader
  = Some (demo_state trace_slow_pass, demo_outputs trace_slow_pass) /\
  task (demo_state trace_slow_pass)
  = Some {| pc := Resetting (20 * Second); rateLimitPeriod := 25 * Millisecond;
            ticker := 25 * Millisecond |} /\
  25 * Millisecond < initialRateLimitPeriod.
Proof.
  split; [vm_compute; reflexivity |]. split; [vm_compute; reflexivity | reflexivity].
Qed.

(** C6.  When the loop adapts after a pass measured as zero, the next
    period is exactly [maxRateLimitPeriod]: the step goes through, the
    process does not halt and the new ticker has that period. *)
Theorem zero_elapsed_gives_max_period {Walker Proc : Type}
    (w : Walker) (tr : list (@event Proc)) s outs l :
  run tr (newBackgroundReader w) = Some (s, outs) -> halted s = None ->
  task s = Some l -> pc l = Adapting ->
  nextRateLimitPeriod (rateLimitPeriod l) 0 = Some maxRateLimitPeriod /\
  exists s', step (LoopAdapt 0) s = Some (s', Internal) /\
             halted s' = None /\
             task s' = Some {| pc := Resetting 0; rateLimitPeriod := maxRateLimitPeriod;
                               ticker := maxRateLimitPeriod |}.
Proof.
  intros Hrun Hh Ht Hpc.
  destruct (reachable_inv w tr s outs Hrun) as (_ & _ & _ & Hi). rewrite Ht in Hi.
  destruct Hi as (_ & Hle & _ & Hpos). destruct (Hpos Hh) as (Hp & _).
  assert (Hnext : nextRateLimitPeriod (rateLimitPeriod l) 0 = Some maxRateLimitPeriod).
  { apply next_zero_elapsed. split; [exact Hp |].
    apply Z.le_trans with maxRateLimitPeriod; [exact Hle | discriminate]. }
  split; [exact Hnext |].
  eexists. split; [apply (step_adapt_ok s l 0 _ Ht Hpc Hh Hnext); reflexivity |].
  split; reflexivity.
Qed.

Lemma zero_elapsed_gives_max_period_witness :
  nextRateLimitPeriod initialRateLimitPeriod 0 = Some maxRateLimitPeriod /\
  exists s', step (LoopAdapt 0) (demo_state trace_one_pass) = Some (s', Internal) /\
             halted s' = None /\
             task s' = Some {| pc := Resetting 0; rateLimitPeriod := maxRateLimitPeriod;
                               ticker := maxRateLimitPeriod |}.
Proof.
  apply (zero_elapsed_gives_max_period tt trace_one_pass (demo_state trace_one_pass)
           (demo_outputs trace_one_pass)
           {| pc := Adapting; rateLimitPeriod := initialRateLimitPeriod;
              ticker := initialRateLimitPeriod |});
    vm_compute; reflexivity.
Defined.

(** ** Lifecycle *)

(** C4, amended.  After a [start], a second [start] fails with "already
    running" for as long as the loop has not returned in between; a [stop]
    fails with "already not running" exactly when the reader is not
    running, so that a [stop] right after a [stop] returns what the first
    one returned (nil while the loop has not yet honoured the request);
    a failing call leaves the state as it was. *)
Theorem lifecycle_calls {Walker Proc : Type}
    (w : Walker) (tr : list (@event Proc)) s outs :
  run tr (newBackgroundReader w) = Some (s, outs) -> halted s = None ->
  (forall s1 o1 mid s2 outs2,
      step CallStart s = Some (s1, o1) -> run mid s1 = Some (s2, outs2) ->
      loop_exits mid s1 = false -> halted s2 = None ->
      step CallStart s2 = Some (s2, RetError (Some errAlreadyRunning))) /\
  (exists s1,
      step CallStop s
      = Some (s1, RetError (if running (br s) then None else Some errNotRunning)) /\
      step CallStop s1
      = Some (s1, RetError (if running (br s) then None else Some errNotRunning))) /\
  (forall ev e s',
      ev = CallStart \/ ev = CallStop ->
      step ev s = Some (s', RetError (Some e)) -> s' = s).
Proof.
  intros Hrun Hh.
  pose proof (reachable_inv w tr s outs Hrun) as Hinv.
  pose proof Hinv as (Hm & _).
  split; [| split].
  - intros s1 o1 mid s2 outs2 Hstart Hmid Hex Hh2.
    pose proof (step_inv _ _ _ _ Hinv Hstart) as Hinv1.
    pose proof (run_inv _ _ _ _ Hinv1 Hmid) as Hinv2.
    assert (Hr1 : running (br s1) = true).
    { destruct (running (br s)) eqn:Hr.
      - rewrite (step_start_running s Hm Hh Hr) in Hstart. injection Hstart as <- _. exact Hr.
      - rewrite (step_start_idle s Hm Hh Hr) in Hstart. injection Hstart as <- _.
        reflexivity. }
    apply step_start_running; [apply Hinv2 | exact Hh2 |].
    exact (running_until_exit mid s1 s2 outs2 Hinv1 Hr1 Hmid Hex).
  - clear Hrun Hinv. break_system s. cbn in Hm, Hh. subst.
    destruct rn; eexists; split; reflexivity.
  - intros ev e s' [-> | ->] Hstep.
    + destruct (running (br s)) eqn:Hr.
      * rewrite (step_start_running s Hm Hh Hr) in Hstep. congruence.
      * rewrite (step_start_idle s Hm Hh Hr) in Hstep. discriminate.
    + destruct (running (br s)) eqn:Hr.
      * rewrite (step_stop_running s Hm Hh Hr) in Hstep. discriminate.
      * rewrite (step_stop_idle s Hm Hh Hr) in Hstep. congruence.
Qed.

Lemma lifecycle_calls_witness :
  exists s1,
    step CallStop (demo_state [CallStart])
    = Some (s1, RetError (if running (br (demo_state [CallStart]))
                          then None else Some errNotRunning)) /\
    step CallStop s1
    = Some (s1, RetError (if running (br (demo_state [CallStart]))
                          then None else Some errNotRunning)).
Proof.
  apply (lifecycle_calls tt [CallStart] (demo_state [CallStart]) (demo_outputs [CallStart]));
    vm_compute; reflexivity.
Defined.

(** C4 as worded fails: the second of two [stop]s in a row succeeds while
    the loop is still in its pass. *)
Lemma second_stop_succeeds :
  run [CallStart; CallStop; CallStop] demo_reader
  = Some (demo_state [CallStart; CallStop; CallStop],
          [RetError None; RetError None; RetError None]).
Proof. vm_compute. reflexivity. Qed.

(** ** Failed passes *)

(** C5.  A pass whose walk returns an error publishes nothing: whatever the
    walker wrote and whatever calls arrived meanwhile, the ready buffer, its
    bytes and the published mapping are as before the pass, the only trace
    of the failure is one log entry, and the loop is back at the head of
    its body, alive, with its locals unchanged. *)
Theorem failed_pass_publishes_nothing {Walker Proc : Type}
    (w : Walker) (tr : list (@event Proc)) s outs l mid s1 outs1 m e :
  run tr (newBackgroundReader w) = Some (s, outs) ->
  task s = Some l -> pc l = Walking -> halted s = None ->
  forallb (fun ev => negb (is_WalkerReturn ev)) mid = true ->
  run mid s = Some (s1, outs1) ->
  exists s2,
    step (WalkerReturn m (Some e)) s1 = Some (s2, Internal) /\
    readyBuf (br s2) = readyBuf (br s) /\
    readySockets (br s2) = readySockets (br s) /\
    snapshot s2 = snapshot s /\
    publications (mid ++ [WalkerReturn m (Some e)]) s = [] /\
    logs s2 = Errorf_walking e :: logs s /\
    task s2 = Some l /\ running (br s2) = true /\ halted s2 = None.
Proof.
  intros Hrun Ht Hpc Hh Hall Hmid.
  pose proof (reachable_inv w tr s outs Hrun) as Hinv.
  destruct (run_walking mid s s1 outs1 l Hinv Ht Hpc Hh Hall Hmid)
    as (H1 & H2 & H3 & H4 & H5 & H6 & H7 & H8 & H9 & H10 & H11).
  pose proof (step_walk_failed s1 l m e H1 Hpc H7) as Hstep.
  pose proof (run_inv _ _ _ _ Hinv Hmid) as Hinv1.
  eexists. split; [exact Hstep |]. cbn.
  repeat split; try assumption.
  - rewrite (publications_app _ _ _ _ _ Hmid), H10. cbn [app publications]. rewrite Hstep.
    unfold publishes. reflexivity.
  - rewrite H8. reflexivity.
  - destruct Hinv1 as (_ & _ & _ & Hi). rewrite H1 in Hi. apply Hi.
Qed.

Lemma failed_pass_publishes_nothing_witness :
  exists s2,
    step (WalkerReturn None (Some "boom"%string))
      (demo_state (trace_one_pass ++ [LoopAdapt (20 * Second); LoopReset; LoopSleep;
                                      WalkerWrite bytes_B; CallGetWalkedProcPid []]))
    = Some (s2, Internal) /\
    readyBuf (br s2)
    = readyBuf (br (demo_state (trace_one_pass ++ [LoopAdapt (20 * Second); LoopReset;
                                                    LoopSleep]))) /\
    readySockets (br s2)
    = readySockets (br (demo_state (trace_one_pass ++ [LoopAdapt (20 * Second); LoopReset;
                                                        LoopSleep]))) /\
    snapshot s2
    = snapshot (demo_state (trace_one_pass ++ [LoopAdapt (20 * Second); LoopReset;
                                               LoopSleep])) /\
    publications ([WalkerWrite bytes_B; CallGetWalkedProcPid []]
                  ++ [WalkerReturn None (Some "boom"%string)])
      (demo_state (trace_one_pass ++ [LoopAdapt (20 * Second); LoopReset; LoopSleep])) = [] /\
    logs s2
    = Errorf_walking "boom"%string
      :: logs (demo_state (trace_one_pass ++ [LoopAdapt (20 * Second); LoopReset;
                                              LoopSleep])) /\
    task s2 = Some {| pc := Walking; rateLimitPeriod := 25 * Millisecond;
                      ticker := 25 * Millisecond |} /\
    running (br s2) = true /\ halted s2 = None.
Proof.
  apply (failed_pass_publishes_nothing tt
           (trace_one_pass ++ [LoopAdapt (20 * Second); LoopReset; LoopSleep])
           (demo_state (trace_one_pass ++ [LoopAdapt (20 * Second); LoopReset; LoopSleep]))
           (demo_outputs (trace_one_pass ++ [LoopAdapt (20 * Second); LoopReset; LoopSleep]))
           {| pc := Walking; rateLimitPeriod := 25 * Millisecond;
              ticker := 25 * Millisecond |}
           [WalkerWrite bytes_B; CallGetWalkedProcPid []]
           (demo_state (trace_one_pass ++ [LoopAdapt (20 * Second); LoopReset; LoopSleep;
                                           WalkerWrite bytes_B; CallGetWalkedProcPid []]))
           [Internal; RetSnapshot bytes_A demo_sockets]);
    vm_compute; reflexivity.
Defined.

(** C8.  After a failed walk the walking buffer is the same buffer and still
    holds what it held before the pass followed by everything the failed
    walk wrote; the loop is back in [walkProcPid] without having passed the
    [Reset] of line 118 (the reset is not even enabled there), so the next
    write appends after those bytes. *)
Theorem failed_walk_keeps_its_bytes {Walker Proc : Type}
    (w : Walker) (tr : list (@event Proc)) s outs l mid s1 outs1 m e :
  run tr (newBackgroundReader w) = Some (s, outs) ->
  task s = Some l -> pc l = Walking -> halted s = None ->
  forallb (fun ev => negb (is_WalkerReturn ev)) mid = true ->
  run mid s = Some (s1, outs1) ->
  exists s2,
    step (WalkerReturn m (Some e)) s1 = Some (s2, Internal) /\
    walkingBuf (br s2) = walkingBuf (br s) /\
    walking_bytes s2 = walking_bytes s ++ written mid /\
    task s2 = Some l /\
    step LoopReset s2 = None /\
    forall chunk, exists s3,
      step (WalkerWrite chunk) s2 = Some (s3, Internal) /\
      walking_bytes s3 = walking_bytes s ++ written mid ++ chunk.
Proof.
  intros Hrun Ht Hpc Hh Hall Hmid.
  pose proof (reachable_inv w tr s outs Hrun) as Hinv.
  destruct (run_walking mid s s1 outs1 l Hinv Ht Hpc Hh Hall Hmid)
    as (H1 & H2 & H3 & H4 & H5 & H6 & H7 & H8 & H9 & H10 & H11).
  pose proof (step_walk_failed s1 l m e H1 Hpc H7) as Hstep.
  eexists. split; [exact Hstep |].
  split; [exact H2 |]. split; [exact H6 |]. split; [reflexivity |]. split.
  - unfold step. cbn. destruct l as [p per tck]. cbn in Hpc. subst p. reflexivity.
  - intros chunk. eexists. split; [apply (step_write _ l chunk); [reflexivity | exact Hpc | reflexivity] |].
    unfold walking_bytes at 1. cbn [br heap]. rewrite load_store_same.
    unfold walking_bytes at 1. cbn [br heap]. fold (walking_bytes s1).
    rewrite H6, app_assoc. reflexivity.
Qed.

Lemma failed_walk_keeps_its_bytes_witness :
  exists s2,
    step (WalkerReturn None (Some "boom"%string))
      (demo_state ([CallStart] ++ [WalkerWrite bytes_A; CallStop; WalkerWrite bytes_B]))
    = Some (s2, Internal) /\
    walkingBuf (br s2) = walkingBuf (br (demo_state [CallStart])) /\
    walking_bytes s2
    = walking_bytes (demo_state [CallStart])
      ++ @written nat [WalkerWrite bytes_A; CallStop; WalkerWrite bytes_B] /\
    task s2 = Some {| pc := Walking; rateLimitPeriod := initialRateLimitPeriod;
                      ticker := initialRateLimitPeriod |} /\
    step LoopReset s2 = None /\
    forall chunk, exists s3,
      step (WalkerWrite chunk) s2 = Some (s3, Internal) /\
      walking_bytes s3
      = walking_bytes (demo_state [CallStart])
        ++ @written nat [WalkerWrite bytes_A; CallStop; WalkerWrite bytes_B] ++ chunk.
Proof.
  apply (failed_walk_keeps_its_bytes tt [CallStart] (demo_state [CallStart])
           (demo_outputs [CallStart])
           {| pc := Walking; rateLimitPeriod := initialRateLimitPeriod;
              ticker := initialRateLimitPeriod |}
           [WalkerWrite bytes_A; CallStop; WalkerWrite bytes_B]
           (demo_state ([CallStart] ++ [WalkerWrite bytes_A; CallStop; WalkerWrite bytes_B]))
           [Internal; RetError None; Internal]);
    vm_compute; reflexivity.
Defined.

(** ** Stopping *)

(** C7, amended.  While a stop is pending the loop is alive and nothing is
    published: every step either keeps the request pending or is the
    loop's return, which clears [running] and [pleaseStop], stops the
    ticker and leaves the published snapshot alone.  From wherever the loop
    stands, one walk that succeeds takes it to that return; a [start] then
    succeeds, and the first successful pass of the new loop publishes the
    bytes left in the walking buffer followed by its own, with its mapping. *)
Theorem stop_honoured_at_next_publish {Walker Proc : Type}
    (w : Walker) (tr : list (@event Proc)) s outs :
  run tr (newBackgroundReader w) = Some (s, outs) -> halted s = None ->
  pleaseStop (br s) = true ->
  exists l,
    task s = Some l /\ running (br s) = true /\
    (forall ev s' o,
        step ev s = Some (s', o) ->
        (pleaseStop (br s') = true /\ task s' <> None /\ publishes ev s = None /\
         snapshot s' = snapshot s) \/
        (ev = LoopPublish /\ task s' = None /\ running (br s') = false /\
         pleaseStop (br s') = false /\ tickers s' = 0%nat /\ snapshot s' = snapshot s)) /\
    (forall walkTime chunks m,
        adapt_goes_on l walkTime ->
        exists s1 outs1,
          run (events_to_publish l walkTime chunks m) s = Some (s1, outs1) /\
          task s1 = None /\ running (br s1) = false /\ pleaseStop (br s1) = false /\
          tickers s1 = 0%nat /\ halted s1 = None /\ snapshot s1 = snapshot s /\
          exists s2,
            step CallStart s1 = Some (s2, RetError None) /\
            forall chunks' m', exists s3 outs3,
              run (walk_events chunks' m') s2 = Some (s3, outs3) /\
              snapshot s3 = (walking_bytes s1 ++ concat chunks', m')).
Proof.
  intros Hrun Hh Hplease.
  pose proof (reachable_inv w tr s outs Hrun) as Hinv.
  pose proof Hinv as (Hm & Hne & Hps & Hi).
  destruct (task s) as [l |] eqn:Ht; [| destruct Hi as (Hr & _); rewrite (Hps Hplease) in Hr;
                                        discriminate].
  exists l. split; [reflexivity |]. split; [exact (Hps Hplease) |]. split.
  - intros ev s' o Hstep. exact (stop_pending_step s ev s' o Hinv Hplease Hstep).
  - intros walkTime chunks m Hgo.
    destruct (run_to_exit s l walkTime chunks m Hinv Ht Hh Hplease Hgo)
      as (s1 & outs1 & Hrun1 & Hinv1 & Hh1 & Ht1 & Hr1 & Hp1 & Htk1 & Hsn1).
    exists s1, outs1. repeat (split; [assumption |]).
    pose proof Hinv1 as (Hm1 & _).
    pose proof (step_start_idle s1 Hm1 Hh1 Hr1) as Hstart.
    eexists. split; [exact Hstart |].
    intros chunks' m'.
    destruct (run_walk_events chunks' m' _ _ (step_inv _ _ _ _ Hinv1 Hstart)
                eq_refl eq_refl eq_refl) as (s3 & outs3 & Hrun3 & _ & _ & Hrest).
    cbn [br] in Hrest.
    assert (Hp' : pleaseStop (set_running true (br s1)) = false)
      by (destruct (br s1); exact Hp1).
    rewrite Hp' in Hrest. destruct Hrest as (_ & _ & Hsn3).
    exists s3, outs3. split; [exact Hrun3 |]. rewrite Hsn3. unfold walking_bytes. cbn.
    destruct (br s1); reflexivity.
Qed.

Lemma stop_honoured_at_next_publish_witness :
  exists l,
    task (demo_state [CallStart; WalkerWrite bytes_A; CallStop]) = Some l /\
    running (br (demo_state [CallStart; WalkerWrite bytes_A; CallStop])) = true.
Proof.
  destruct (stop_honoured_at_next_publish tt [CallStart; WalkerWrite bytes_A; CallStop]
              (demo_state [CallStart; WalkerWrite bytes_A; CallStop])
              (demo_outputs [CallStart; WalkerWrite bytes_A; CallStop]))
    as (l & Ht & Hr & _); [vm_compute; reflexivity .. |].
  exists l. split; assumption.
Defined.

(** C7 as worded fails: a stop was accepted, two walks have ended since
    (both with an error), and the loop is still alive, in its third walk,
    with the request still pending. *)
Lemma failed_passes_delay_stop :
  run trace_stop_then_failures demo_reader
  = Some (demo_state trace_stop_then_failures,
          [RetError None; RetError None; Internal; Internal]) /\
  task (demo_state trace_stop_then_failures)
  = Some {| pc := Walking; rateLimitPeriod := initialRateLimitPeriod;
            ticker := initialRateLimitPeriod |} /\
  running (br (demo_state trace_stop_then_failures)) = true /\
  pleaseStop (br (demo_state trace_stop_then_failures)) = true.
Proof.
  split; [vm_compute; reflexivity |]. split; [vm_compute; reflexivity |].
  split; vm_compute; reflexivity.
Qed.

(** ** Further properties of the reader *)





(** X3.  The walking and the ready role are always held by two different
    buffers, so neither a write of the walker nor the reset of line 118
    changes what consumers are handed. *)
Theorem walker_never_touches_ready_buffer {Walker Proc : Type}
    (w : Walker) (tr : list (@event Proc)) s outs :
  run tr (newBackgroundReader w) = Some (s, outs) ->
  walkingBuf (br s) <> readyBuf (br s) /\
  forall ev s' o,
    ev = LoopReset \/ (exists c, ev = WalkerWrite c) ->
    step ev s = Some (s', o) ->
    snapshot s' = snapshot s /\ readyBuf (br s') = readyBuf (br s).
Proof.
  intros Hrun.
  pose proof (reachable_inv w tr s outs Hrun) as Hinv.
  split; [apply Hinv |].
  intros ev s' o Hev Hstep.
  pose proof (step_snapshot s ev s' o Hinv Hstep) as Hsn.
  assert (Hpub : publishes ev s = None) by (destruct Hev as [-> | [c ->]]; reflexivity).
  rewrite Hpub in Hsn. split; [exact Hsn |].
  pose proof (step_not_halted _ _ _ _ Hstep) as Hh.
  destruct (task s) as [l |] eqn:Ht;
    [| unfold step in Hstep; rewrite Hh, Ht in Hstep;
       destruct Hev as [-> | [c ->]]; discriminate].
  destruct Hev as [-> | [c ->]].
  - destruct (pc l) eqn:Hpc;
      try (unfold step in Hstep; rewrite Hh, Ht in Hstep; destruct l; cbn in Hpc; subst;
           discriminate).
    rewrite (step_reset s l walkTime Ht Hpc Hh) in Hstep. injection Hstep as <- _. reflexivity.
  - destruct (pc l) eqn:Hpc;
      try (unfold step in Hstep; rewrite Hh, Ht in Hstep; destruct l; cbn in Hpc; subst;
           discriminate).
    rewrite (step_write s l c Ht Hpc Hh) in Hstep. injection Hstep as <- _. reflexivity.
Qed.

Lemma walker_never_touches_ready_buffer_witness :
  walkingBuf (br (demo_state trace_one_pass)) <> readyBuf (br (demo_state trace_one_pass)).
Proof.
  apply (walker_never_touches_ready_buffer tt trace_one_pass (demo_state trace_one_pass)
           (demo_outputs trace_one_pass)).
  vm_compute. reflexivity.
Defined.

(** X4.  [running] is true exactly while the loop goroutine exists, a stop
    is only pending on a running reader, and no ticker leaks: on a live
    process exactly one ticker runs while the loop exists and none
    otherwise. *)
Theorem running_iff_loop_alive {Walker Proc : Type}
    (w : Walker) (tr : list (@event Proc)) s outs :
  run tr (newBackgroundReader w) = Some (s, outs) ->
  (running (br s) = true <-> task s <> None) /\
  (pleaseStop (br s) = true -> running (br s) = true) /\
  (halted s = None -> tickers s = match task s with Some _ => 1%nat | None => 0%nat end).
Proof.
  intros Hrun.
  destruct (reachable_inv w tr s outs Hrun) as (_ & _ & Hps & Hi).
  split; [| split; [exact Hps |]].
  - destruct (task s) as [l |].
    + destruct Hi as (Hr & _). split; [discriminate | intros _; exact Hr].
    + destruct Hi as (Hr & _). split; [congruence | intros H; contradiction].
  - intros Hh. destruct (task s) as [l |].
    + destruct Hi as (_ & _ & _ & Hlive). apply (Hlive Hh).
    + apply Hi.
Qed.

Lemma running_iff_loop_alive_witness :
  (running (br (demo_state trace_stop_then_failures)) = true
   <-> task (demo_state trace_stop_then_failures) <> None) /\
  (pleaseStop (br (demo_state trace_stop_then_failures)) = true
   -> running (br (demo_state trace_stop_then_failures)) = true) /\
  (halted (demo_state trace_stop_then_failures) = None
   -> tickers (demo_state trace_stop_then_failures)
      = match task (demo_state trace_stop_then_failures) with
        | Some _ => 1%nat
        | None => 0%nat
        end).
Proof.
  apply (running_iff_loop_alive tt trace_stop_then_failures
           (demo_state trace_stop_then_failures) (demo_outputs trace_stop_then_failures)).
  vm_compute. reflexivity.
Defined.

(** X5.  Bytes leave a buffer only through the [Reset] of line 118, which
    empties the walking buffer: every other step (the accessor's read
    included) leaves each buffer's bytes in place, possibly with more
    appended. *)
Theorem only_reset_removes_bytes {Walker Proc : Type}
    (s : @System Walker Proc) (ev : @event Proc) s' o p :
  step ev s = Some (s', o) ->
  (ev = LoopReset ->
   load (heap s') (walkingBuf (br s)) = [] /\
   (p <> walkingBuf (br s) -> load (heap s') p = load (heap s) p)) /\
  (ev <> LoopReset -> exists more, load (heap s') p = load (heap s) p ++ more).
Proof.
  intros Hstep. destruct s as [[w0 mt rn ps wb rb rs] hp tk tks lg hl].
  unfold_actions. change (0 <? initialRateLimitPeriod) with true in Hstep. cbn in Hstep.
  destruct hl as [why |]; [discriminate |].
  split.
  - intros ->. destruct tk as [[[] per tck] |]; cbn in Hstep; try discriminate.
    injection Hstep as <- _. cbn. rewrite load_store_same. split; [reflexivity |].
    intros Hne. apply load_store_other. congruence.
  - intros Hne.
    assert (Hkeep : forall h : Heap, exists more, load h p = load h p ++ more)
      by (intros h; exists []; rewrite app_nil_r; reflexivity).
    destruct ev as [| | buf | chunk | m err | | walkTime | |]; cbn in Hstep.
    + destruct mt; cbn in Hstep; [discriminate |].
      destruct rn; cbn in Hstep; injection Hstep as <- _; apply Hkeep.
    + destruct mt; cbn in Hstep; [discriminate |].
      destruct rn; cbn in Hstep; injection Hstep as <- _; apply Hkeep.
    + destruct mt; cbn in Hstep; [discriminate |].
      injection Hstep as <- _; apply Hkeep.
    + destruct tk as [[[] per tck] |]; cbn in Hstep; try discriminate.
      injection Hstep as <- _. cbn. destruct p, wb; cbn;
        try (exists chunk; reflexivity); exists []; rewrite app_nil_r; reflexivity.
    + destruct tk as [[[] per tck] |]; cbn in Hstep; try discriminate.
      destruct err; injection Hstep as <- _; apply Hkeep.
    + destruct tk as [[[] per tck] |]; cbn in Hstep; try discriminate.
      destruct mt; cbn in Hstep; [discriminate |].
      destruct ps; cbn in Hstep; injection Hstep as <- _; apply Hkeep.
    + destruct tk as [[[] per tck] |]; cbn in Hstep; try discriminate.
      destruct (warnsSlowPass walkTime); cbn in Hstep;
        destruct (nextRateLimitPeriod per walkTime) as [q |]; cbn in Hstep;
        try (destruct (0 <? q)); cbn in Hstep; injection Hstep as <- _; apply Hkeep.
    + contradiction.
    + destruct tk as [[[] per tck] |]; cbn in Hstep; try discriminate.
      injection Hstep as <- _; apply Hkeep.
Qed.

Lemma only_reset_removes_bytes_witness :
  (@LoopReset nat = LoopReset ->
   load (heap (demo_state (trace_slow_pass ++ [LoopReset])))
     (walkingBuf (br (demo_state trace_slow_pass))) = [] /\
   (BufA <> walkingBuf (br (demo_state trace_slow_pass)) ->
    load (heap (demo_state (trace_slow_pass ++ [LoopReset]))) BufA
    = load (heap (demo_state trace_slow_pass)) BufA)) /\
  (@LoopReset nat <> LoopReset ->
   exists more, load (heap (demo_state (trace_slow_pass ++ [LoopReset]))) BufA
                = load (heap (demo_state trace_slow_pass)) BufA ++ more).
Proof.
  apply (only_reset_removes_bytes (demo_state trace_slow_pass) LoopReset
           (demo_state (trace_slow_pass ++ [LoopReset])) Internal BufA).
  vm_compute. reflexivity.
Defined.

(** X6.  In regular operation a snapshot holds exactly one pass: when the
    loop stands at the reset after a publication and no stop is pending,
    the next walk that succeeds publishes precisely the bytes that walk
    wrote, with its mapping; so does the first walk of a freshly built
    reader. *)
Theorem clean_pass_publishes_exactly_its_bytes {Walker Proc : Type}
    (w : Walker) (tr : list (@event Proc)) s outs l walkTime chunks m :
  run tr (newBackgroundReader w) = Some (s, outs) -> halted s = None ->
  task s = Some l -> pc l = Resetting walkTime -> pleaseStop (br s) = false ->
  (exists s' outs',
      run (LoopReset :: LoopSleep :: walk_events chunks m) s = Some (s', outs') /\
      snapshot s' = (concat chunks, m)) /\
  (exists s' outs',
      run (CallStart :: walk_events chunks m) (newBackgroundReader w) = Some (s', outs') /\
      snapshot s' = (concat chunks, m)).
Proof.
  intros Hrun Hh Ht Hpc Hps.
  pose proof (reachable_inv w tr s outs Hrun) as Hinv.
  split.
  - pose proof (step_reset s l walkTime Ht Hpc Hh) as H1.
    pose proof (step_inv _ _ _ _ Hinv H1) as Hinv1.
    pose proof (step_sleep
                  (mkSystem (br s) (store (heap s) (walkingBuf (br s)) [])
                     (Some {| pc := Sleeping walkTime; rateLimitPeriod := rateLimitPeriod l;
                              ticker := ticker l |}) (tickers s) (logs s) None)
                  {| pc := Sleeping walkTime; rateLimitPeriod := rateLimitPeriod l;
                     ticker := ticker l |} walkTime eq_refl eq_refl eq_refl) as H2.
    cbn [br heap tickers logs rateLimitPeriod ticker] in H2.
    pose proof (step_inv _ _ _ _ Hinv1 H2) as Hinv2.
    destruct (run_walk_events chunks m _ _ Hinv2 eq_refl eq_refl eq_refl)
      as (s' & outs' & Hrun' & _ & _ & Hrest).
    cbn [br] in Hrest. rewrite Hps in Hrest. destruct Hrest as (_ & _ & Hsn).
    exists s', (Internal :: Internal :: outs'). split.
    + apply (run_cons _ _ _ _ _ _ _ H1). apply (run_cons _ _ _ _ _ _ _ H2). exact Hrun'.
    + rewrite Hsn. unfold walking_bytes. cbn [br heap]. rewrite load_store_same. reflexivity.
  - pose proof (initial_inv (Proc := Proc) w) as Hinv0.
    pose proof (step_start_idle (newBackgroundReader (Proc := Proc) w) eq_refl eq_refl eq_refl)
      as H1.
    pose proof (step_inv _ _ _ _ Hinv0 H1) as Hinv1.
    destruct (run_walk_events chunks m _ _ Hinv1 eq_refl eq_refl eq_refl)
      as (s' & outs' & Hrun' & _ & _ & Hrest).
    cbn in Hrest. destruct Hrest as (_ & _ & Hsn).
    exists s', (RetError None :: outs'). split.
    + apply (run_cons _ _ _ _ _ _ _ H1). exact Hrun'.
    + exact Hsn.
Qed.

Lemma clean_pass_publishes_exactly_its_bytes_witness :
  exists s' outs',
    run (LoopReset :: LoopSleep :: walk_events [bytes_B] demo_sockets)
      (demo_state trace_slow_pass) = Some (s', outs') /\
    snapshot s' = (concat [bytes_B], demo_sockets).
Proof.
  apply (clean_pass_publishes_exactly_its_bytes tt trace_slow_pass
           (demo_state trace_slow_pass) (demo_outputs trace_slow_pass)
           {| pc := Resetting (20 * Second); rateLimitPeriod := 25 * Millisecond;
              ticker := 25 * Millisecond |} (20 * Second) [bytes_B] demo_sockets);
    vm_compute; reflexivity.
Defined.

(** X7.  There is no floor under the period: when the scaled period
    truncates to zero or less, [time.NewTicker] panics at line 116 and the
    process is gone; the old ticker has been stopped, nothing is published,
    and no later call is served. *)
Theorem nonpositive_period_panics {Walker Proc : Type}
    (w : Walker) (tr : list (@event Proc)) s outs l walkTime p :
  run tr (newBackgroundReader w) = Some (s, outs) -> halted s = None ->
  task s = Some l -> pc l = Adapting ->
  nextRateLimitPeriod (rateLimitPeriod l) walkTime = Some p -> p <= 0 ->
  exists s',
    step (LoopAdapt walkTime) s = Some (s', Internal) /\
    halted s' = Some (PanicNonPositiveInterval p) /\
    snapshot s' = snapshot s /\
    forall ev, step ev s' = None.
Proof.
  intros Hrun Hh Ht Hpc Hn Hp.
  destruct (step_adapt_panic s l walkTime p Ht Hpc Hh Hn Hp)
    as (s' & Hstep & Hh' & _ & Hbr & Hheap).
  exists s'. split; [exact Hstep |]. split; [exact Hh' |]. split.
  - unfold snapshot. rewrite Hbr, Hheap. reflexivity.
  - intros ev. apply (step_halted ev s' _ Hh').
Qed.

Lemma nonpositive_period_panics_witness :
  exists s',
    step (LoopAdapt (10 ^ 18)) (demo_state trace_one_pass) = Some (s', Internal) /\
    halted s' = Some (PanicNonPositiveInterval 0) /\
    snapshot s' = snapshot (demo_state trace_one_pass) /\
    forall ev, step ev s' = None.
Proof.
  apply (nonpositive_period_panics tt trace_one_pass (demo_state trace_one_pass)
           (demo_outputs trace_one_pass)
           {| pc := Adapting; rateLimitPeriod := initialRateLimitPeriod;
              ticker := initialRateLimitPeriod |} (10 ^ 18) 0);
    vm_compute; try reflexivity; discriminate.
Defined.

(** X8.  Between two publications every consumer is handed the same
    snapshot: whatever calls, walker writes and loop statements other than
    a swap happen in between, two calls of [getWalkedProcPid] with the same
    buffer return the same bytes and the same mapping. *)
Theorem same_snapshot_between_publications {Walker Proc : Type}
    (w : Walker) (tr mid : list (@event Proc)) s outs s1 outs1 buf :
  run tr (newBackgroundReader w) = Some (s, outs) ->
  run mid s = Some (s1, outs1) -> halted s1 = None ->
  publications mid s = [] ->
  exists bytes m,
    step (CallGetWalkedProcPid buf) s = Some (s, RetSnapshot (buf ++ bytes) m) /\
    step (CallGetWalkedProcPid buf) s1 = Some (s1, RetSnapshot (buf ++ bytes) m).
Proof.
  intros Hrun Hmid Hh1 Hpub.
  pose proof (reachable_inv w tr s outs Hrun) as Hinv.
  pose proof (run_inv _ _ _ _ Hinv Hmid) as Hinv1.
  pose proof (run_snapshot mid s s1 outs1 Hinv Hmid) as Hsn. rewrite Hpub in Hsn. cbn in Hsn.
  assert (Hh : halted s = None).
  { destruct mid as [| ev mid].
    - cbn in Hmid. injection Hmid as <- _. exact Hh1.
    - cbn in Hmid. destruct (step ev s) as [[sa oa] |] eqn:Hs; [| discriminate].
      exact (step_not_halted _ _ _ _ Hs). }
  exists (load (heap s) (readyBuf (br s))), (readySockets (br s)).
  split; [apply step_get; [apply Hinv | exact Hh] |].
  unfold snapshot in Hsn. injection Hsn as Hb Hm. rewrite <- Hb, <- Hm.
  apply step_get; [apply Hinv1 | exact Hh1].
Qed.

Lemma same_snapshot_between_publications_witness :
  exists bytes m,
    step (CallGetWalkedProcPid bytes_B) (demo_state trace_one_pass)
    = Some (demo_state trace_one_pass, RetSnapshot (bytes_B ++ bytes) m) /\
    step (CallGetWalkedProcPid bytes_B)
      (demo_state (trace_one_pass ++ [LoopAdapt (20 * Second); LoopReset; LoopSleep;
                                      WalkerWrite bytes_B; CallStop]))
    = Some (demo_state (trace_one_pass ++ [LoopAdapt (20 * Second); LoopReset; LoopSleep;
                                           WalkerWrite bytes_B; CallStop]),
            RetSnapshot (bytes_B ++ bytes) m).
Proof.
  apply (same_snapshot_between_publications tt trace_one_pass
           [LoopAdapt (20 * Second); LoopReset; LoopSleep; WalkerWrite bytes_B; CallStop]
           (demo_state trace_one_pass) (demo_outputs trace_one_pass)
           (demo_state (trace_one_pass ++ [LoopAdapt (20 * Second); LoopReset; LoopSleep;
                                           WalkerWrite bytes_B; CallStop]))
           [Internal; Internal; Internal; Internal; RetError None] bytes_B);
    vm_compute; reflexivity.
Defined.

(** X9.  A successful [start] always begins a loop at the head of its body
    with the initial period and a fresh ticker, whatever period an earlier
    loop had adapted to, and it leaves both buffers and the published
    snapshot as they are: consumers keep receiving the snapshot from before
    the stop until the new loop publishes. *)
Theorem start_begins_fresh_loop {Walker Proc : Type}
    (w : Walker) (tr : list (@event Proc)) s outs s' :
  run tr (newBackgroundReader w) = Some (s, outs) ->
  step CallStart s = Some (s', RetError None) ->
  task s = None /\
  task s' = Some {| pc := Walking; rateLimitPeriod := initialRateLimitPeriod;
                    ticker := initialRateLimitPeriod |} /\
  running (br s') = true /\ pleaseStop (br s') = false /\
  tickers s' = 1%nat /\ heap s' = heap s /\ snapshot s' = snapshot s.
Proof.
  intros Hrun Hstep.
  pose proof (reachable_inv w tr s outs Hrun) as Hinv.
  pose proof Hinv as (Hm & _ & Hps & Hi).
  pose proof (step_not_halted _ _ _ _ Hstep) as Hh.
  destruct (running (br s)) eqn:Hr.
  - rewrite (step_start_running s Hm Hh Hr) in Hstep. discriminate.
  - rewrite (step_start_idle s Hm Hh Hr) in Hstep. injection Hstep as <-.
    destruct (task s) as [l |]; [destruct Hi as (Hr' & _); congruence |].
    destruct Hi as (_ & Htk & _). cbn. rewrite Htk.
    assert (Hp : pleaseStop (br s) = false).
    { destruct (pleaseStop (br s)) eqn:Hp; [| reflexivity].
      specialize (Hps eq_refl). congruence. }
    repeat split. exact Hp.
Qed.

Lemma start_begins_fresh_loop_witness :
  task (demo_state (trace_slow_pass ++ [CallStop; LoopReset; LoopSleep;
                                        WalkerReturn None None; LoopPublish])) = None /\
  task (demo_state (trace_slow_pass ++ [CallStop; LoopReset; LoopSleep;
                                        WalkerReturn None None; LoopPublish; CallStart]))
  = Some {| pc := Walking; rateLimitPeriod := initialRateLimitPeriod;
            ticker := initialRateLimitPeriod |} /\
  running (br (demo_state (trace_slow_pass ++ [CallStop; LoopReset; LoopSleep;
                                               WalkerReturn None None; LoopPublish;
                                               CallStart]))) = true /\
  pleaseStop (br (demo_state (trace_slow_pass ++ [CallStop; LoopReset; LoopSleep;
                                                  WalkerReturn None None; LoopPublish;
                                                  CallStart]))) = false /\
  tickers (demo_state (trace_slow_pass ++ [CallStop; LoopReset; LoopSleep;
                                           WalkerReturn None None; LoopPublish;
                                           CallStart])) = 1%nat /\
  heap (demo_state (trace_slow_pass ++ [CallStop; LoopReset; LoopSleep;
                                        WalkerReturn None None; LoopPublish; CallStart]))
  = heap (demo_state (trace_slow_pass ++ [CallStop; LoopReset; LoopSleep;
                                          WalkerReturn None None; LoopPublish])) /\
  snapshot (demo_state (trace_slow_pass ++ [CallStop; LoopReset; LoopSleep;
                                            WalkerReturn None None; LoopPublish; CallStart]))
  = snapshot (demo_state (trace_slow_pass ++ [CallStop; LoopReset; LoopSleep;
                                              WalkerReturn None None; LoopPublish])).
Proof.
  apply (start_begins_fresh_loop tt
           (trace_slow_pass ++ [CallStop; LoopReset; LoopSleep;
                                WalkerReturn None None; LoopPublish])
           (demo_state (trace_slow_pass ++ [CallStop; LoopReset; LoopSleep;
                                            WalkerReturn None None; LoopPublish]))
           (demo_outputs (trace_slow_pass ++ [CallStop; LoopReset; LoopSleep;
                                              WalkerReturn None None; LoopPublish])));
    vm_compute; reflexivity.
Defined.

(** X13.  What the adaptation of lines 98-116 does to the loop, for every
    reachable live state and every [int64] pass time: the statement always
    runs (the conversion of line 112 is never undefined).  After a pass of
    at most half [rateLimitPeriod * targetWalkTime] nanoseconds the loop
    goes on to the reset with a new period between one nanosecond and the
    maximum and one ticker of that period; after a pass of at least twice
    that, or when the measured pass time is negative, [time.NewTicker]
    panics. *)
Theorem adapt_goes_on_or_panics {Walker Proc : Type}
    (w : Walker) (tr : list (@event Proc)) s outs l walkTime :
  run tr (newBackgroundReader w) = Some (s, outs) -> halted s = None ->
  task s = Some l -> pc l = Adapting ->
  Float64.min_int64 <= walkTime <= Float64.max_int64 ->
  exists s',
    step (LoopAdapt walkTime) s = Some (s', Internal) /\
    halted s' <> Some ConversionNotDefined /\
    (0 <= walkTime -> 2 * walkTime <= rateLimitPeriod l * targetWalkTime ->
     exists p, 1 <= p <= maxRateLimitPeriod /\ halted s' = None /\ tickers s' = 1%nat /\
               task s' = Some {| pc := Resetting walkTime; rateLimitPeriod := p;
                                 ticker := p |}) /\
    (walkTime < 0 \/ 2 * (rateLimitPeriod l * targetWalkTime) <= walkTime ->
     exists p, p <= 0 /\ halted s' = Some (PanicNonPositiveInterval p)).
Proof.
  intros Hrun Hh Ht Hpc Hwt.
  pose proof (reachable_inv w tr s outs Hrun) as Hinv.
  destruct Hinv as (_ & _ & _ & Hi). rewrite Ht in Hi.
  destruct Hi as (_ & Hle & _ & Hlive). destruct (Hlive Hh) as (Hpos & _ & Htk).
  set (q := rateLimitPeriod l) in *.
  assert (Hq : 0 < q <= maxRateLimitPeriod) by (split; assumption).
  assert (Hq' : 0 < q <= Float64.max_int64).
  { split; [exact Hpos |]. apply Z.le_trans with maxRateLimitPeriod; [exact Hle | discriminate]. }
  assert (Hgo : forall p, nextRateLimitPeriod q walkTime = Some p -> 0 < p ->
                exists s', step (LoopAdapt walkTime) s = Some (s', Internal) /\
                           halted s' = None /\ tickers s' = 1%nat /\
                           task s' = Some {| pc := Resetting walkTime; rateLimitPeriod := p;
                                             ticker := p |}).
  { intros p Hn Hp. eexists. split; [apply (step_adapt_ok s l walkTime p Ht Hpc Hh Hn Hp) |].
    cbn. rewrite Htk. repeat split. }
  assert (Hstop : forall p, nextRateLimitPeriod q walkTime = Some p -> p <= 0 ->
                  exists s', step (LoopAdapt walkTime) s = Some (s', Internal) /\
                             halted s' = Some (PanicNonPositiveInterval p)).
  { intros p Hn Hp.
    destruct (step_adapt_panic s l walkTime p Ht Hpc Hh Hn Hp) as (s' & Hs & Hh' & _).
    exists s'. split; assumption. }
  destruct (Z.lt_trichotomy walkTime 0) as [Hneg | [-> | Hwpos]].
  - (* the clock stepped back *)
    destruct (next_negative_elapsed q walkTime Hq) as (p & Hn & _ & Hp); [lia |].
    destruct (Hstop p Hn Hp) as (s' & Hs & Hh').
    exists s'. split; [exact Hs |]. split; [rewrite Hh'; discriminate |].
    split; [intros H0; lia |]. intros _. exists p. split; assumption.
  - (* no time elapsed *)
    pose proof (next_zero_elapsed q Hq') as Hn.
    destruct (Hgo maxRateLimitPeriod Hn) as (s' & Hs & Hh' & Htk' & Ht'); [reflexivity |].
    exists s'. split; [exact Hs |]. split; [rewrite Hh'; discriminate |]. split.
    + intros _ _. exists maxRateLimitPeriod. repeat split; try assumption; discriminate.
    + intros [H0 | H0]; [lia |]. exfalso.
      unfold targetWalkTime, Second, Millisecond in H0. lia.
  - destruct (next_positive_elapsed q walkTime Hq') as (p & Hn & Hp0 & Hp1); [lia |].
    destruct (Z.le_gt_cases p 0) as [Hz | Hnz].
    + destruct (Hstop p Hn Hz) as (s' & Hs & Hh').
      exists s'. split; [exact Hs |]. split; [rewrite Hh'; discriminate |]. split.
      * intros _ Hshort. exfalso.
        destruct (next_short_pass q walkTime Hq') as (r & Hr & Hr1 & _); [lia | exact Hshort |].
        rewrite Hn in Hr. injection Hr as <-. lia.
      * intros _. exists p. split; assumption.
    + destruct (Hgo p Hn Hnz) as (s' & Hs & Hh' & Htk' & Ht').
      exists s'. split; [exact Hs |]. split; [rewrite Hh'; discriminate |]. split.
      * intros _ _. exists p. repeat split; try assumption; lia.
      * intros [H0 | Hlong]; [lia |]. exfalso.
        rewrite (next_long_pass q walkTime Hq') in Hn; [| lia | exact Hlong].
        injection Hn as <-. lia.
Qed.

Lemma adapt_goes_on_or_panics_witness :
  exists s',
    step (LoopAdapt (- Second)) (demo_state trace_one_pass) = Some (s', Internal) /\
    halted s' <> Some ConversionNotDefined /\
    (0 <= - Second -> 2 * - Second <= initialRateLimitPeriod * targetWalkTime ->
     exists p, 1 <= p <= maxRateLimitPeriod /\ halted s' = None /\ tickers s' = 1%nat /\
               task s' = Some {| pc := Resetting (- Second); rateLimitPeriod := p;
                                 ticker := p |}) /\
    (- Second < 0 \/ 2 * (initialRateLimitPeriod * targetWalkTime) <= - Second ->
     exists p, p <= 0 /\ halted s' = Some (PanicNonPositiveInterval p)).
Proof.
  apply (adapt_goes_on_or_panics tt trace_one_pass (demo_state trace_one_pass)
           (demo_outputs trace_one_pass)
           {| pc := Adapting; rateLimitPeriod := initialRateLimitPeriod;
              ticker := initialRateLimitPeriod |} (- Second));
    vm_compute; try reflexivity; split; discriminate.
Defined.

Section Logging.
Context {Walker Proc : Type}.
Implicit Types (s : @System Walker Proc) (ev : @event Proc).

Lemma slow_pass_test walkTime :
  Float64.min_int64 <= walkTime <= Float64.max_int64 ->
  warnsSlowPass walkTime = (3 * targetWalkTime <? 2 * walkTime).
Proof.
  intros Hwt. pose proof (warns_threshold walkTime Hwt) as Hw.
  destruct (warnsSlowPass walkTime), (Z.ltb_spec (3 * targetWalkTime) (2 * walkTime));
    try reflexivity.
  - exfalso. assert (H1 : 3 * targetWalkTime < 2 * walkTime) by (apply Hw; reflexivity). lia.
  - exfalso. assert (H1 : false = true) by (apply Hw; assumption). discriminate H1.
Qed.

(** What one step adds to the log. *)
Lemma step_logs s ev s' o :
  step ev s = Some (s', o) ->
  (forall walkTime, ev = LoopAdapt walkTime ->
                    Float64.min_int64 <= walkTime <= Float64.max_int64) ->
  logged_errors (logs s') = logged_errors (logs s) ++ walk_errors [ev] /\
  logged_passes (logs s') = logged_passes (logs s) ++ pass_times [ev] /\
  logged_warnings (logs s') = logged_warnings (logs s) ++ slow_passes [ev].
Proof.
  intros Hstep Hwt. destruct s as [[w0 mt rn ps wb rb rs] hp tk tks lg hl].
  unfold_actions. change (0 <? initialRateLimitPeriod) with true in Hstep. cbn in Hstep.
  destruct hl as [why |]; [discriminate |].
  unfold logged_errors, logged_passes, logged_warnings, slow_passes.
  destruct ev as [| | buf | chunk | m err | | walkTime | |]; cbn in Hstep.
  - destruct mt; cbn in Hstep; [discriminate |].
    destruct rn; cbn in Hstep; injection Hstep as <- _; cbn; rewrite !app_nil_r; auto.
  - destruct mt; cbn in Hstep; [discriminate |].
    destruct rn; cbn in Hstep; injection Hstep as <- _; cbn; rewrite !app_nil_r; auto.
  - destruct mt; cbn in Hstep; [discriminate |].
    injection Hstep as <- _; cbn; rewrite !app_nil_r; auto.
  - destruct tk as [[[] per tck] |]; cbn in Hstep; try discriminate.
    injection Hstep as <- _; cbn; rewrite !app_nil_r; auto.
  - destruct tk as [[[] per tck] |]; cbn in Hstep; try discriminate.
    destruct err; injection Hstep as <- _; cbn; rewrite ?app_nil_r; auto.
  - destruct tk as [[[] per tck] |]; cbn in Hstep; try discriminate.
    destruct mt; cbn in Hstep; [discriminate |].
    destruct ps; cbn in Hstep; injection Hstep as <- _; cbn; rewrite !app_nil_r; auto.
  - destruct tk as [[[] per tck] |]; cbn in Hstep; try discriminate.
    change (List.filter (fun t => 3 * targetWalkTime <? 2 * t) (pass_times [LoopAdapt walkTime]))
      with (if 3 * targetWalkTime <? 2 * walkTime then [walkTime] else []).
    rewrite <- (slow_pass_test walkTime (Hwt walkTime eq_refl)).
    destruct (warnsSlowPass walkTime); cbn in Hstep;
      destruct (nextRateLimitPeriod per walkTime) as [q |]; cbn in Hstep;
      try (destruct (0 <? q)); cbn in Hstep; injection Hstep as <- _;
      cbn; rewrite ?app_nil_r; auto.
  - destruct tk as [[[] per tck] |]; cbn in Hstep; try discriminate.
    injection Hstep as <- _; cbn; rewrite !app_nil_r; auto.
  - destruct tk as [[[] per tck] |]; cbn in Hstep; try discriminate.
    injection Hstep as <- _; cbn; rewrite !app_nil_r; auto.
Qed.

Lemma walk_errors_cons ev (tr : list (@event Proc)) :
  walk_errors (ev :: tr) = walk_errors [ev] ++ walk_errors tr.
Proof. destruct ev as [| | buf | chunk | m [e |] | | walkTime | |]; reflexivity. Qed.

Lemma pass_times_cons ev (tr : list (@event Proc)) :
  pass_times (ev :: tr) = pass_times [ev] ++ pass_times tr.
Proof. destruct ev; reflexivity. Qed.

Lemma slow_passes_cons ev (tr : list (@event Proc)) :
  slow_passes (ev :: tr) = slow_passes [ev] ++ slow_passes tr.
Proof. unfold slow_passes. rewrite pass_times_cons, List.filter_app. reflexivity. Qed.

Lemma run_logs tr : forall s s' outs,
  run tr s = Some (s', outs) ->
  Forall (fun walkTime => Float64.min_int64 <= walkTime <= Float64.max_int64)
         (pass_times tr) ->
  logged_errors (logs s') = logged_errors (logs s) ++ walk_errors tr /\
  logged_passes (logs s') = logged_passes (logs s) ++ pass_times tr /\
  logged_warnings (logs s') = logged_warnings (logs s) ++ slow_passes tr.
Proof.
  induction tr as [| ev tr IH]; intros s s' outs Hrun Hall.
  - cbn in Hrun. injection Hrun as <- _.
    unfold slow_passes. cbn. rewrite !app_nil_r. auto.
  - cbn [run] in Hrun.
    destruct (step ev s) as [[s1 o] |] eqn:Hstep; [| discriminate].
    destruct (run tr s1) as [[s2 os] |] eqn:Hrest; [| discriminate].
    injection Hrun as <- _.
    rewrite pass_times_cons in Hall. apply Forall_app in Hall. destruct Hall as [Hev Htr].
    destruct (step_logs s ev s1 o Hstep) as (He & Hp & Hw).
    { intros walkTime ->. cbn in Hev. apply Forall_inv in Hev. exact Hev. }
    destruct (IH s1 s2 os Hrest Htr) as (He' & Hp' & Hw').
    rewrite He', Hp', Hw', He, Hp, Hw.
    rewrite (walk_errors_cons ev tr), (pass_times_cons ev tr), (slow_passes_cons ev tr).
    rewrite <- !app_assoc. auto.
Qed.
End Logging.

(** X14.  The log is a faithful record of the loop: after any run from a
    freshly built reader it holds, in order, exactly one error per failed
    walk (line 77), the pass time of every pass that was published (line
    101), and a warning for exactly those passes that took more than one
    and a half times the target (line 103).  No call, walker write or other
    statement logs any of these, and nothing is ever removed. *)
Theorem log_records_the_run {Walker Proc : Type}
    (w : Walker) (tr : list (@event Proc)) s outs :
  run tr (newBackgroundReader w) = Some (s, outs) ->
  Forall (fun walkTime => Float64.min_int64 <= walkTime <= Float64.max_int64)
         (pass_times tr) ->
  logged_errors (logs s) = walk_errors tr /\
  logged_passes (logs s) = pass_times tr /\
  logged_warnings (logs s) = slow_passes tr.
Proof.
  intros Hrun Hall. exact (run_logs tr _ _ _ Hrun Hall).
Qed.

Lemma log_records_the_run_witness :
  logged_errors (logs (demo_state trace_logging)) = walk_errors trace_logging /\
  logged_passes (logs (demo_state trace_logging)) = pass_times trace_logging /\
  logged_warnings (logs (demo_state trace_logging)) = slow_passes trace_logging.
Proof.
  apply (log_records_the_run tt trace_logging (demo_state trace_logging)
           (demo_outputs trace_logging)).
  - vm_compute. reflexivity.
  - repeat constructor; vm_compute; congruence.
Defined.
